(** * IO.js: the action combinator kernel, embedded as an abstract machine

    The library composes "actions", JavaScript closures of the shape
    [function (M, input, success, failure)], where [success] and [failure]
    are actions again and [M] is the orchestrator that runs them.  Every
    closure that the library builds is represented here by one constructor
    carrying the variables the closure captures; the function [body] gives,
    for each constructor, what the JavaScript body does: the mutations of
    the captured variables and the calls it makes, in order.  [M.call], the
    next-tick queue and the timer queue are run by [step].

    Objects that flow linearly through a sequence (IOError objects, plain
    records) are values updated functionally; objects that are shared and
    mutated in place (orchestrators, pause conditions, the private variables
    of [atomic], [gen], [chan], [sync], [fork], [interruptible]) live in a
    store of cells. *)

From stdpp Require Import gmap strings list.
From Stdlib Require Import ZArith Lia Permutation.

Open Scope string_scope.
Open Scope list_scope.
Open Scope Z_scope.
Set Warnings "-register-all".

(** ** Values, actions and the other closures *)

(** The constructor of an object, which [instanceof] inspects. *)
Inductive cls := Object_ | IOError_.

(** One-argument user functions handed to [autowrap] ([wrapFn]). *)
Inductive ufn1_code :=
| f1_resume_with.  (* function (err) { err.resume(v); } *)

(** Three-argument user functions handed to [autowrap] ([wrapAsync3]),
    in the [function (err, restart, giveup)] style of handlers. *)
Inductive ufn3_code :=
| f3_resume_with   (* function (err, restart, giveup) { err.resume(v); } *)
| f3_restart_with  (* function (err, restart, giveup) { restart(v); } *)
| f3_giveup.       (* function (err, restart, giveup) { giveup(err); } *)

Inductive val :=
| VUndef
| VNull
| VBool (b : bool)
| VNum (n : Z)
| VStr (s : string)
| VArr (xs : list val)
| VObj (c : cls) (fields : list (string * val))
| VOrch (M : nat)
| VAct (a : action)
| VCb (c : callback)
| VPause (p : nat)               (* an IOPauseCondition object, by reference *)
with action :=
| drain
| pass
| IO_fail
| seq (a b : action)
| branch (a success failure : action)
| chain_ (actions : list action)
| chain_iter_ (actions : list action) (i : nat) (success : action)
| raise_ (err : val)
| forgive
| sendKV (kvpairs : list (string * val)) (a : action)
| catch_ (onfail : action)
| supply_ (value : val)
| map_index_ (i : nat)           (* IO.map(function (output) { return {index: i, value: output}; }) *)
| tap_ (tag : string)            (* IO.probe(fn) with fn recording its argument under tag *)
| delay_ (ms : Z)
| tee_ (a : action)
| dynamic_ (fn : ufn1_code) (v : val)
| wrapAsync3 (fn : ufn3_code) (v : val)
| wrapAsync3_inner (fn : ufn3_code) (v : val)
| gen_catcher_ (g : nat) (M : nat) (input : val) (success failure : action)
| gen_catcher_inner (g : nat) (M : nat) (input : val) (success failure : action)
| gen_ (g : nat)
| genOne_ (g : nat)
| IO_pause
| sync_now_ (c : nat)
| sync_later_ (c : nat)
| send_chan (c : nat)
| recv_chan (c : nat)
| atomic_doit (c : nat) (a : action)
| atomic_done (c : nat) (a : action)
| fork_ (actions : list action)
| fork_join (c : nat) (M : nat) (n : nat) (success failure : action)
| fork_errjoin (c : nat) (M : nat) (n : nat) (success failure : action)
| interrupt_ (c : nat)
| oninterrupt_wrap (handler : thunk) (oldInterrupt : action)
with callback :=
| autobranch (M : nat) (a success failure : action)
| cb_succeed (M : nat) (success failure : action)   (* function (input) { M.call(success, input, M.drain, failure); } *)
| cb_fail (M : nat) (failure : action)              (* function (err) { M.call(failure, err, M.drain, M.drain); } *)
| chan_waiter (M : nat) (success failure : action)  (* function (data) { M.delay(0, success, data, M.drain, failure); } *)
with thunk :=
| followon_ (c : nat) (M : nat) (input : val) (success failure : action)
| gen_resume (g : nat) (M : nat) (input : val) (success failure : action)
| user_handler (tag : string).   (* a zero-argument user procedure that records tag *)

(** [autodrain(M, action)] *)
Definition autodrain (M : nat) (a : action) : callback := autobranch M a drain drain.

(** [failseq(action, failure)] *)
Definition failseq (a failure : action) : action := branch a failure failure.

(** ** Objects *)

Fixpoint get_field (k : string) (fields : list (string * val)) : val :=
  match fields with
  | [] => VUndef
  | (k', v) :: rest => if String.eqb k k' then v else get_field k rest
  end.

Fixpoint set_field (k : string) (v : val) (fields : list (string * val)) : list (string * val) :=
  match fields with
  | [] => [(k, v)]
  | (k', v') :: rest =>
      if String.eqb k k' then (k, v) :: rest else (k', v') :: set_field k v rest
  end.

Fixpoint delete_field (k : string) (fields : list (string * val)) : list (string * val) :=
  match fields with
  | [] => []
  | (k', v') :: rest =>
      if String.eqb k k' then rest else (k', v') :: delete_field k rest
  end.

Definition set_fields (kvpairs fields : list (string * val)) : list (string * val) :=
  fold_left (fun acc kv => set_field (fst kv) (snd kv) acc) kvpairs fields.

(** [new IOError(M, error, input, success, failure)] *)
Definition IOError_fields (M : nat) (error input : val) (success failure : action)
    : list (string * val) :=
  [ ("M", VOrch M);
    ("error", error);
    ("input", input);
    ("resume", VCb (autobranch M success drain failure));
    ("rollback", VCb (autodrain M failure));
    ("success", VAct success);
    ("failure", VAct failure) ].

Definition IOError (M : nat) (error input : val) (success failure : action) : val :=
  VObj IOError_ (IOError_fields M error input success failure).

(** Property read [x.k].  Reading a property of [undefined] or [null]
    throws; primitives have none of the properties used here.  The
    properties that [sendKV] stored on a pause condition live in the store
    and are not read here, so this read is exact only on plain objects,
    IOErrors and primitives. *)
Definition prop (x : val) (k : string) : option val :=
  match x with
  | VUndef | VNull => None
  | VObj _ fields => Some (get_field k fields)
  | _ => Some VUndef
  end.

(** [results[i] = x] on a JavaScript array: writing past the end extends
    the array, the skipped positions read as [undefined]. *)
Fixpoint array_set (xs : list val) (i : nat) (x : val) : list val :=
  match i, xs with
  | O, [] => [x]
  | O, _ :: rest => x :: rest
  | S j, [] => VUndef :: array_set [] j x
  | S j, y :: rest => y :: array_set rest j x
  end.

(** ** The machine *)

(** What remains to be done in the current turn of the event loop.  A
    JavaScript body that continues after a nested call is cut at the call;
    the part after it is an instruction of its own. *)
Inductive instr :=
| ICall (M : nat) (a : action) (input : val) (success failure : action)
| IApply (M : nat) (a : action) (input : val) (success failure : action)
| ITryEnd (M : nat) (input : val) (success failure : action)
| IHandlerEnd
| ICallback (c : callback) (x : val)
| IThunk (t : thunk)
| IFlush (c : nat)
| IRecvRest (c : nat) (M : nat) (success failure : action)
| IGenRest (g : nat) (M : nat) (input : val) (success failure : action)
| IDoneRest (c : nat) (M : nat)
| IPauseResume (p : nat).

(** The functions handed to [nextTick] and [setTimeout]. *)
Inductive task :=
| TDeferred (M : nat) (a : action) (input : val) (success failure : action)
| TDelayed (M : nat) (a : action) (input : val) (success failure : action).

Inductive cell :=
| C_orch (proto : option nat) (depth : option Z)
| C_pause (resume_callbacks : list thunk) (extra : list (string * val))
| C_gen (paused : bool) (genCount : Z) (delay_ms : Z) (producer : nat -> val) (calls : nat)
| C_sync (countDown : Z) (followon : option thunk)
| C_chan (waiters : list callback) (queue : list val)
| C_atomic (arr : list (val * action * action)) (busy : bool) (pauseStream : option nat)
| C_fork (countUp errUp : Z) (results : list val)
| C_interruptible (interrupt : action).

Record state := mkState {
  maxdepth : Z;
  kBufferCapacity : Z;
  cells : gmap nat cell;
  next : nat;
  stack : list instr;
  ticks : list task;
  timers : list (Z * task);
  clock : Z;
  trace : list (string * val)
}.

Definition with_cells (cs : gmap nat cell) (st : state) : state :=
  mkState (maxdepth st) (kBufferCapacity st) cs (next st) (stack st) (ticks st)
          (timers st) (clock st) (trace st).

Definition with_stack (k : list instr) (st : state) : state :=
  mkState (maxdepth st) (kBufferCapacity st) (cells st) (next st) k (ticks st)
          (timers st) (clock st) (trace st).

Definition with_ticks (q : list task) (st : state) : state :=
  mkState (maxdepth st) (kBufferCapacity st) (cells st) (next st) (stack st) q
          (timers st) (clock st) (trace st).

Definition with_timers (q : list (Z * task)) (now : Z) (st : state) : state :=
  mkState (maxdepth st) (kBufferCapacity st) (cells st) (next st) (stack st) (ticks st)
          q now (trace st).

Definition record (tag : string) (v : val) (st : state) : state :=
  mkState (maxdepth st) (kBufferCapacity st) (cells st) (next st) (stack st) (ticks st)
          (timers st) (clock st) (trace st ++ [(tag, v)]).

Definition set_cell (i : nat) (c : cell) (st : state) : state :=
  with_cells (<[i := c]> (cells st)) st.

(** A fresh object. *)
Definition alloc (c : cell) (st : state) : nat * state :=
  (next st,
   mkState (maxdepth st) (kBufferCapacity st) (<[next st := c]> (cells st)) (S (next st))
           (stack st) (ticks st) (timers st) (clock st) (trace st)).

Definition push (k : list instr) (st : state) : state := with_stack (k ++ stack st) st.

(** [M.depth]: an own property, or the one of the prototype. *)
Fixpoint depth_lookup (fuel : nat) (cs : gmap nat cell) (M : nat) {struct fuel} : Z :=
  match cs !! M with
  | Some (C_orch _ (Some d)) => d
  | Some (C_orch (Some p) None) =>
      match fuel with
      | O => 0
      | S k => depth_lookup k cs p
      end
  | _ => 0
  end.

Definition get_depth (M : nat) (st : state) : Z := depth_lookup (next st) (cells st) M.

(** [M.depth = d] always writes an own property. *)
Definition set_depth (M : nat) (d : Z) (st : state) : state :=
  set_cell M (C_orch (match cells st !! M with
                      | Some (C_orch p _) => p
                      | _ => None
                      end) (Some d)) st.

Definition nextTick (t : task) (st : state) : state := with_ticks (ticks st ++ [t]) st.

Fixpoint insert_timer (due : Z) (t : task) (q : list (Z * task)) : list (Z * task) :=
  match q with
  | [] => [(due, t)]
  | (d, t') :: rest =>
      if d <=? due then (d, t') :: insert_timer due t rest else (due, t) :: (d, t') :: rest
  end.

Definition setTimeout (t : task) (ms : Z) (st : state) : state :=
  with_timers (insert_timer (clock st + ms) t (timers st)) (clock st) st.

(** [ExM.delay] *)
Definition delay (M : nat) (ms : Z) (a : action) (input : val) (success failure : action)
    (st : state) : state :=
  if 0 <? ms then setTimeout (TDelayed M a input success failure) ms st
  else nextTick (TDelayed M a input success failure) st.

(** [ExM.call]: the depth is incremented whether or not the action is
    entered; the action runs inside a [try] whose end is [ITryEnd]. *)
Definition call (M : nat) (a : action) (input : val) (success failure : action)
    (st : state) : state :=
  let d := get_depth M st in
  let st1 := set_depth M (d + 1) st in
  if d <? maxdepth st then
    push [IApply M a input success failure; ITryEnd M input success failure] st1
  else
    nextTick (TDeferred M a input success failure) st1.

Definition run_task (t : task) (st : state) : state :=
  match t with
  | TDeferred M a input success failure =>
      push [ICall M a input success failure]
           (set_depth M (Z.min 0 (maxdepth st - 1)) st)
  | TDelayed M a input success failure =>
      push [ICall M a input success failure] st
  end.

(** ** The closures' bodies *)

(** A body either returns, leaving the instructions it still has to run,
    or throws a host exception. *)
Inductive outcome :=
| Normal (st : state) (k : list instr)
| Throws (e : val) (st : state).

Definition TypeError : val := VStr "TypeError".

(** [chain_iter(actions, i, success)] *)
Definition chain_iter (actions : list action) (i : nat) (success : action) : action :=
  if (length actions <=? i)%nat then success else chain_iter_ actions i success.

(** [chain(actions)], which is also [IO.do] *)
Definition chain (actions : list action) : action :=
  match actions with
  | [] => pass
  | [a] => a
  | _ => chain_ actions
  end.

(** The loop of [sendKV]: [input[key] = kvpairs[key]] for every key.
    Assignments to a property of a primitive are lost; on [undefined] and
    [null] the first assignment throws.  The assignments on a pause condition
    are kept with the object.  Arrays, functions and orchestrators would keep
    the property too; it is not represented on them, so the result is exact
    only on the values accepted by [assignable]. *)
Definition assign_keys (kvpairs : list (string * val)) (input : val) (st : state)
    : option (val * state) :=
  match kvpairs, input with
  | [], _ => Some (input, st)
  | _, VUndef | _, VNull => None
  | _, VObj c fields => Some (VObj c (set_fields kvpairs fields), st)
  | _, VPause p =>
      match cells st !! p with
      | Some (C_pause cbs extra) =>
          Some (input, set_cell p (C_pause cbs (set_fields kvpairs extra)) st)
      | _ => Some (input, st)
      end
  | _, _ => Some (input, st)
  end.

(** [delete err.index] *)
Definition delete_index (err : val) : val :=
  match err with
  | VObj c fields => VObj c (delete_field "index" fields)
  | _ => err
  end.

(** [results[ix] = x], where [ix] was read from a property: only a
    non-negative number is an array index. *)
Definition store_result (results : list val) (ix x : val) : list val :=
  match ix with
  | VNum i => if 0 <=? i then array_set results (Z.to_nat i) x else results
  | _ => results
  end.

(** The [forEach] of [fork_]: every branch gets its own orchestrator object
    [Object.create(M)] and is started through [Mi.delay(0, ...)]. *)
Fixpoint fork_launch (c M n : nat) (input : val) (success failure : action)
    (i : nat) (actions : list action) (st : state) : state :=
  match actions with
  | [] => st
  | a :: rest =>
      let '(Mi, st1) := alloc (C_orch (Some M) None) st in
      let a' := chain [a; map_index_ i] in
      let st2 := delay Mi 0 a' input
                   (fork_join c M n success failure)
                   (sendKV [("index", VNum (Z.of_nat i))] (fork_errjoin c M n success failure))
                   st1 in
      fork_launch c M n input success failure (S i) rest st2
  end.

(** [action(M, input, success, failure)] *)
Definition body (a : action) (M : nat) (input : val) (success failure : action)
    (st : state) : outcome :=
  match a with
  | drain => Normal st []
  | pass => Normal st [ICall M success input drain failure]
  | IO_fail => Normal st [ICall M failure input drain drain]
  | seq a b => Normal st [ICall M a input (seq b success) failure]
  | branch a s f => Normal st [ICall M a input s f]
  | chain_ actions =>
      Normal st [ICall M (chain_iter actions 0 success) input drain failure]
  | chain_iter_ actions i success' =>
      (* built by chain_iter only for i < actions.length *)
      match actions !! i with
      | Some ai => Normal st [ICall M ai input (chain_iter actions (S i) success') failure]
      | None => Throws TypeError st
      end
  | raise_ err =>
      Normal st [ICall M failure (IOError M err input success failure) drain drain]
  | forgive =>
      match prop input "input" with
      | Some v => Normal st [ICall M success v drain failure]
      | None => Throws TypeError st
      end
  | sendKV kvpairs a =>
      match assign_keys kvpairs input st with
      | Some (input', st') => Normal st' [ICall M a input' success failure]
      | None => Throws TypeError st
      end
  | catch_ onfail =>
      let restartCB := autobranch M (catch_ onfail) success failure in
      let restartAct := branch (catch_ onfail) success failure in
      let withRestart := sendKV [("restart", VCb restartCB)] onfail in
      Normal st [ICall M success input drain (branch withRestart restartAct failure)]
  | supply_ value => Normal st [ICall M success value drain failure]
  | map_index_ i =>
      Normal st [ICall M success
                   (VObj Object_ [("index", VNum (Z.of_nat i)); ("value", input)])
                   drain failure]
  | tap_ tag => Normal (record tag input st) [ICall M success input drain failure]
  | delay_ ms => Normal (delay M ms success input drain failure st) []
  | tee_ a =>
      Normal (nextTick (TDelayed M a input drain drain) st)
             [ICall M success input drain failure]
  | dynamic_ f1_resume_with v =>
      (* fn(input) is input.resume(v) and returns undefined, which stops the
         sequence; an exception of fn goes to failure *)
      match prop input "resume" with
      | Some (VCb c) => Normal st [ICallback c v]
      | _ => Normal st [ICall M failure TypeError drain drain]
      end
  | wrapAsync3 fn v => Normal st [ICall M (wrapAsync3_inner fn v) input success failure]
  | wrapAsync3_inner fn v =>
      match fn with
      | f3_resume_with =>
          match prop input "resume" with
          | Some (VCb c) => Normal st [ICallback c v]
          | _ => Throws TypeError st
          end
      | f3_restart_with => Normal st [ICallback (cb_succeed M success failure) v]
      | f3_giveup => Normal st [ICallback (cb_fail M failure) input]
      end
  | gen_catcher_ g Mg inputg sg fg =>
      Normal st [ICall M (gen_catcher_inner g Mg inputg sg fg) input success failure]
  | gen_catcher_inner g Mg inputg sg fg =>
      match input with
      | VPause p =>
          match cells st !! g, cells st !! p with
          | Some (C_gen paused genCount delay_ms producer calls), Some (C_pause cbs extra) =>
              if paused then Normal st []
              else
                Normal (set_cell p (C_pause (cbs ++ [gen_resume g Mg inputg sg fg]) extra)
                          (set_cell g (C_gen true genCount delay_ms producer calls) st))
                       []
          | _, _ => Normal st []
          end
      | _ => Normal st [ICallback (cb_fail M failure) input]
      end
  | gen_ g =>
      let catcher := catch_ (gen_catcher_ g M input success failure) in
      Normal st [ICall M (seq catcher (genOne_ g)) input success failure]
  | genOne_ g =>
      match cells st !! g with
      | Some (C_gen paused genCount delay_ms producer calls) =>
          let genCount1 := if genCount =? 0 then kBufferCapacity st else genCount in
          if paused then
            Normal (set_cell g (C_gen paused genCount1 delay_ms producer calls) st) []
          else
            let value := producer calls in
            let st' := set_cell g (C_gen paused (genCount1 - 1) delay_ms producer (S calls)) st in
            match value with
            | VUndef => Normal st' []
            | _ => Normal st' [ICall M success value drain failure;
                               IGenRest g M input success failure]
            end
      | _ => Normal st []
      end
  | IO_pause =>
      let '(p, st') := alloc (C_pause [] []) st in
      Normal st' [ICall M failure (VPause p) drain drain]
  | sync_now_ c =>
      match cells st !! c with
      | Some (C_sync countDown _) =>
          Normal (set_cell c (C_sync countDown (Some (followon_ c M input success failure))) st) []
      | _ => Normal st []
      end
  | sync_later_ c =>
      match cells st !! c with
      | Some (C_sync _ (Some t)) =>
          Normal st [IThunk t; ICall M success input drain failure]
      | _ => Normal st [ICall M success input drain failure]
      end
  | send_chan c =>
      match cells st !! c with
      | Some (C_chan waiters queue) =>
          Normal (set_cell c (C_chan waiters (queue ++ [input])) st)
                 [IFlush c; ICall M success input drain failure]
      | _ => Normal st []
      end
  | recv_chan c => Normal st [IFlush c; IRecvRest c M success failure]
  | atomic_doit c a =>
      match cells st !! c with
      | Some (C_atomic arr busy pauseStream) =>
          if negb busy then
            Normal (set_cell c (C_atomic arr true pauseStream) st)
                   [ICall M (seq a (atomic_done c a)) input success failure]
          else if negb (kBufferCapacity st =? 0)
                  && (kBufferCapacity st <=? Z.of_nat (length arr) + 1) then
            let arr' := arr ++ [(input, success, failure)] in
            match pauseStream with
            | Some p =>
                Normal (set_cell c (C_atomic arr' busy (Some p)) st)
                       [ICall M failure (VPause p) drain drain]
            | None =>
                let '(p, st1) := alloc (C_pause [] []) st in
                Normal (set_cell c (C_atomic arr' busy (Some p)) st1)
                       [ICall M failure (VPause p) drain drain]
            end
          else
            Normal (set_cell c (C_atomic (arr ++ [(input, success, failure)]) busy pauseStream) st) []
      | _ => Normal st []
      end
  | atomic_done c a =>
      match cells st !! c with
      | Some (C_atomic ((x0, x1, x2) :: arr') busy pauseStream) =>
          Normal (set_cell c (C_atomic arr' busy pauseStream) st)
                 [ICall M (seq a (atomic_done c a)) x0 x1 x2;
                  IDoneRest c M;
                  ICall M success input drain failure]
      | Some (C_atomic [] busy pauseStream) =>
          Normal (set_cell c (C_atomic [] false pauseStream) st)
                 [ICall M success input drain failure]
      | _ => Normal st []
      end
  | fork_ actions =>
      let '(c, st1) := alloc (C_fork 0 0 []) st in
      Normal (fork_launch c M (length actions) input success failure 0 actions st1) []
  | fork_join c Mf n successf failuref =>
      match cells st !! c with
      | Some (C_fork countUp errUp results) =>
          let countUp' := countUp + 1 in
          match prop input "index", prop input "value" with
          | Some ix, Some v =>
              let results' := store_result results ix v in
              let st' := set_cell c (C_fork countUp' errUp results') st in
              if errUp + countUp' =? Z.of_nat n then
                Normal st' [ICall Mf successf (VArr results') drain failuref]
              else Normal st' []
          | _, _ => Throws TypeError (set_cell c (C_fork countUp' errUp results) st)
          end
      | _ => Normal st []
      end
  | fork_errjoin c Mf n successf failuref =>
      match cells st !! c with
      | Some (C_fork countUp errUp results) =>
          let errUp' := errUp + 1 in
          match prop input "index" with
          | Some ix =>
              let err := delete_index input in
              let results' := store_result results ix err in
              let st' := set_cell c (C_fork countUp errUp' results') st in
              if errUp' + countUp =? Z.of_nat n then
                if countUp =? 0 then Normal st' [ICall Mf failuref err drain drain]
                else Normal st' [ICall Mf successf (VArr results') drain failuref]
              else Normal st' []
          | None => Throws TypeError (set_cell c (C_fork countUp errUp' results) st)
          end
      | _ => Normal st []
      end
  | interrupt_ c =>
      match cells st !! c with
      | Some (C_interruptible interrupt) => Normal st [ICall M interrupt input success failure]
      | _ => Normal st []
      end
  | oninterrupt_wrap handler oldInterrupt =>
      Normal st [IThunk handler; ICall M oldInterrupt input success failure]
  end.

(** One-argument callbacks. *)
Definition run_callback (c : callback) (x : val) (st : state) : state :=
  match c with
  | autobranch M a success failure => push [ICall M a x success failure] st
  | cb_succeed M success failure => push [ICall M success x drain failure] st
  | cb_fail M failure => push [ICall M failure x drain drain] st
  | chan_waiter M success failure => delay M 0 success x drain failure st
  end.

(** Zero-argument procedures. *)
Definition run_thunk (t : thunk) (st : state) : state :=
  match t with
  | followon_ c M input success failure =>
      (* if (--countDown <= 0) { followon = undefined; M.call(success, ...); } *)
      match cells st !! c with
      | Some (C_sync countDown f) =>
          if countDown - 1 <=? 0 then
            push [ICall M success input drain failure]
                 (set_cell c (C_sync (countDown - 1) None) st)
          else set_cell c (C_sync (countDown - 1) f) st
      | _ => st
      end
  | gen_resume g M input success failure =>
      (* paused = false; M.call(gen_, input, success, failure); *)
      match cells st !! g with
      | Some (C_gen _ genCount delay_ms producer calls) =>
          push [ICall M (gen_ g) input success failure]
               (set_cell g (C_gen false genCount delay_ms producer calls) st)
      | _ => st
      end
  | user_handler tag => record tag VUndef st
  end.

(** A host exception leaves the bodies it passes through and lands in
    the [catch] clause of the nearest enclosing [call]:
    [failure(M, new IOError(M, e, input, success, failure), M.drain, M.drain)],
    itself inside a [try] that only logs.  An exception that nothing encloses
    ends the turn. *)
Fixpoint unwind (e : val) (k : list instr) : list instr :=
  match k with
  | [] => []
  | ITryEnd M input success failure :: rest =>
      IApply M failure (IOError M e input success failure) drain drain :: IHandlerEnd :: rest
  | IHandlerEnd :: rest => rest
  | _ :: rest => unwind e rest
  end.

(** One instruction. *)
Definition exec (i : instr) (st : state) : state :=
  match i with
  | ICall M a input success failure => call M a input success failure st
  | IApply M a input success failure =>
      match body a M input success failure st with
      | Normal st' k => push k st'
      | Throws e st' => with_stack (unwind e (stack st')) st'
      end
  | ITryEnd _ _ _ _ => st
  | IHandlerEnd => st
  | ICallback c x => run_callback c x st
  | IThunk t => run_thunk t st
  | IFlush c =>
      (* while (queue.length > 0 && waiters.length > 0) waiters.shift()(queue.shift()); *)
      match cells st !! c with
      | Some (C_chan (w :: waiters) (x :: queue)) =>
          push [ICallback w x; IFlush c] (set_cell c (C_chan waiters queue) st)
      | _ => st
      end
  | IRecvRest c M success failure =>
      match cells st !! c with
      | Some (C_chan waiters []) =>
          set_cell c (C_chan (waiters ++ [chan_waiter M success failure]) []) st
      | Some (C_chan waiters (x :: queue)) =>
          push [ICall M success x drain failure] (set_cell c (C_chan waiters queue) st)
      | _ => st
      end
  | IGenRest g M input success failure =>
      match cells st !! g with
      | Some (C_gen paused genCount delay_ms producer calls) =>
          if paused then st
          else if genCount =? 0 then delay M delay_ms (genOne_ g) input success failure st
          else push [IApply M (genOne_ g) input success failure] st
      | _ => st
      end
  | IDoneRest c M =>
      match cells st !! c with
      | Some (C_atomic arr busy (Some p)) =>
          if Z.of_nat (length arr) <? kBufferCapacity st then
            push [IPauseResume p] (set_cell c (C_atomic arr busy None) st)
          else st
      | _ => st
      end
  | IPauseResume p =>
      (* while (callbacks.length > 0) callbacks.pop()(); *)
      match cells st !! p with
      | Some (C_pause cbs extra) =>
          match last cbs with
          | Some t => push [IThunk t; IPauseResume p]
                           (set_cell p (C_pause (removelast cbs) extra) st)
          | None => st
          end
      | _ => st
      end
  end.

(** One step of the event loop: the next instruction of the running turn;
    when the turn is over the next tick; when no tick is pending the
    earliest timer. *)
Definition step (st : state) : option state :=
  match stack st with
  | i :: k => Some (exec i (with_stack k st))
  | [] =>
      match ticks st with
      | t :: q => Some (run_task t (with_ticks q st))
      | [] =>
          match timers st with
          | (due, t) :: q => Some (run_task t (with_timers q due st))
          | [] => None
          end
      end
  end.

Fixpoint run (fuel : nat) (st : state) : state :=
  match fuel with
  | O => st
  | S n =>
      match step st with
      | Some st' => run n st'
      | None => st
      end
  end.

Definition halted (st : state) : Prop := step st = None.

(** ** The orchestrator [IO.Ex] and the makers of stateful actions *)

(** A fresh world: the orchestrator [ExM] is object 0, with [depth: 0]. *)
Abbreviation Ex := 0%nat (only parsing).

Definition world (maxdepth kBufferCapacity : Z) : state :=
  mkState maxdepth kBufferCapacity {[ Ex := C_orch None (Some 0) ]} 1 [] [] [] 0 [].

(** [maxdepth: 50, kBufferCapacity: 8] *)
Definition ExM : state := world 50 8.

(** [M.run(input, action)] *)
Definition IO_run (M : nat) (input : val) (a : action) (st : state) : state :=
  push [ICall M a input drain drain] st.

(** [N || 1], for [N] a number or absent *)
Definition countDown0 (N : option Z) : Z :=
  match N with
  | Some n => if n =? 0 then 1 else n
  | None => 1
  end.

(** [IO.sync(N)]: [countDown = N || 1], [followon] undefined *)
Definition IO_sync (N : option Z) (st : state) : nat * state :=
  alloc (C_sync (countDown0 N) None) st.

(** [IO.chan()] *)
Definition IO_chan (st : state) : nat * state := alloc (C_chan [] []) st.

(** [IO.atomic(action)]; the action made is [atomic_doit c action]. *)
Definition IO_atomic (st : state) : nat * state := alloc (C_atomic [] false None) st.

(** [IO.gen(gen, delay_ms)]: [delay_ms = delay_ms || 0].  The producer is
    called without arguments; its successive results are [producer 0],
    [producer 1], ... *)
Definition IO_gen (producer : nat -> val) (delay_ms : Z) (st : state) : nat * state :=
  alloc (C_gen false 0 delay_ms producer 0) st.

(** [IO.interruptible]: [var interrupt = cont].  The source never defines
    [cont]; it is a parameter here. *)
Definition IO_interruptible (cont : action) (st : state) : nat * state :=
  alloc (C_interruptible cont) st.

(** [oninterrupt(handler)] *)
Definition oninterrupt (c : nat) (handler : thunk) (st : state) : state :=
  match cells st !! c with
  | Some (C_interruptible interrupt) =>
      set_cell c (C_interruptible (oninterrupt_wrap handler interrupt)) st
  | _ => st
  end.

(** ** Auxiliary definitions for the statements *)

(** The calls of orchestrator [M] that were deferred and still wait in the
    next-tick queue. *)
Fixpoint pending_deferred (M : nat) (q : list task) : Z :=
  match q with
  | [] => 0
  | TDeferred M' _ _ _ _ :: rest =>
      (if Nat.eqb M M' then 1 else 0) + pending_deferred M rest
  | _ :: rest => pending_deferred M rest
  end.


(** What a body may change without touching the root orchestrator. *)
Definition rooted (st : state) : Prop :=
  (exists p d, cells st !! Ex = Some (C_orch p d)) /\ (0 < next st)%nat.

Definition frame (st st' : state) : Prop :=
  cells st' !! Ex = cells st !! Ex /\ (next st <= next st')%nat /\
  maxdepth st' = maxdepth st /\
  pending_deferred Ex (ticks st') = pending_deferred Ex (ticks st).


Definition outcome_state (o : outcome) : state :=
  match o with
  | Normal st _ => st
  | Throws _ st => st
  end.


(** The invariant of the depth counter of [IO.Ex]. *)
Definition depth_inv (st : state) : Prop :=
  exists d, cells st !! Ex = Some (C_orch None (Some d)) /\
            (0 < next st)%nat /\
            1 <= maxdepth st /\
            0 <= d <= maxdepth st + pending_deferred Ex (ticks st).


(** [IO.run(1, IO.do([IO.pass, ... 30 times]))] on the default orchestrator. *)
Definition deep_chain : state := IO_run Ex (VNum 1) (chain (repeat pass 30)) ExM.

(** Instructions that only close a [try] block: nothing is observable when
    they run. *)
Definition inert (i : instr) : Prop :=
  match i with
  | ITryEnd _ _ _ _ | IHandlerEnd => True
  | _ => False
  end.

(** The machine is about to run instruction [i]; behind it the turn only
    returns from enclosing calls, and no tick is pending. *)
Definition at_instr (i : instr) (st : state) : Prop :=
  exists k, stack st = i :: k /\ Forall inert k /\ ticks st = [].

(** [st'] is reached from [st] without any recorded observation. *)
Definition reach (st st' : state) : Prop :=
  exists n, run n st = st' /\ trace st' = trace st.

(** [st] silently arrives at instruction [i]. *)
Definition arrives (st : state) (i : instr) : Prop :=
  exists st', reach st st' /\ at_instr i st'.

(** The failure continuation that [catch_] installs for the region [start]
    when it runs in orchestrator [M] with outer failure [traceback]. *)
Definition catch_frame (M : nat) (onfail start traceback : action) : action :=
  branch (sendKV [("restart", VCb (autobranch M (catch_ onfail) start traceback))] onfail)
         (branch (catch_ onfail) start traceback)
         traceback.

(** The IOError as the handler of [catch_ onfail] receives it: [sendKV] has
    added the [restart] callback. *)
Definition with_restart (M : nat) (onfail start traceback : action) (err : val) : val :=
  match err with
  | VObj c fields =>
      VObj c (set_field "restart" (VCb (autobranch M (catch_ onfail) start traceback)) fields)
  | _ => err
  end.



(** A handler that immediately calls [err.resume(v)], written as
    [function (err) { err.resume(v); }] or as
    [function (err, restart, giveup) { err.resume(v); }] and passed through
    [autowrap]. *)
Definition resuming_handler (three_args : bool) (v : val) : action :=
  if three_args then wrapAsync3 f3_resume_with v else dynamic_ f1_resume_with v.

(** Scenario: [IO.run("x", IO.do([probe a, IO.catch(err => err.resume("y")),
    IO.raise("boom"), probe v, probe b]))]. *)
Definition resume_demo : state :=
  IO_run Ex (VStr "x")
    (chain [tap_ "a"; catch_ (resuming_handler false (VStr "y")); raise_ (VStr "boom");
            tap_ "v"; tap_ "b"])
    ExM.

(** [st] arrives at instruction [i] after at least one step. *)
Definition arrives_later (st : state) (i : instr) : Prop :=
  exists n, (0 < n)%nat /\ trace (run n st) = trace st /\ at_instr i (run n st).

(** [IO.do([IO.catch(IO.forgive), IO.raise(e)])] *)
Definition forgive_chain (e : val) : list action := [catch_ forgive; raise_ e].

(** The forgive chain and [pass], each called on ["x"] with a probe as the
    continuation after it. *)
Definition forgive_demo : state :=
  push [ICall Ex (chain (forgive_chain (VStr "e"))) (VStr "x") (tap_ "k") drain] ExM.

Definition pass_demo : state :=
  push [ICall Ex pass (VStr "x") (tap_ "k") drain] ExM.

(** ** Further definitions: sequences, [try], pause conditions *)

(** [st] arrives at instruction [i] after recording exactly the
    observations [evs]. *)
Definition arrives_with (evs : list (string * val)) (st : state) (i : instr) : Prop :=
  exists n, trace (run n st) = trace st ++ evs /\ at_instr i (run n st).

(** [IO.probe] actions recording under the given tags. *)
Definition probes (tags : list string) : list action := map tap_ tags.

(** What the probes record when the value [x] flows through them. *)
Definition probe_events (tags : list string) (x : val) : list (string * val) :=
  map (fun t => (t, x)) tags.

(** The call that the body of [IO.try(action, onfail)] makes:
    [M.call(action, input, success, branch(onfail, success, failure))]. *)
Definition try_ (a onfail : action) (M : nat) (input : val) (success failure : action)
    : instr :=
  ICall M a input success (branch onfail success failure).

(** A catch handler that gives up: [IO.fail], or
    [function (err, restart, giveup) { giveup(err); }] through [autowrap]. *)
Definition failing_handler (three_args : bool) : action :=
  if three_args then wrapAsync3 f3_giveup VUndef else IO_fail.

(** Zero-argument user procedures recording their tags, and what they
    record. *)
Definition procedures (tags : list string) : list thunk := map user_handler tags.

Definition procedure_events (tags : list string) : list (string * val) :=
  map (fun t => (t, VUndef)) tags.

(** ** [IO.interruption(reason)]

    The two actions [mark] and [interrupt] share the table [handlers] and
    the counter [newid].  The table is kept in insertion order, which is the
    order of [Object.keys] here, the keys being the increasing ids.  A handler
    is the closure made by [mark]; it is given by the arguments of that call
    of [mark]. *)

Record call_args := mkArgs {
  arg_M : nat;
  arg_input : val;
  arg_success : action;
  arg_failure : action
}.

Record interruption := mkInterruption {
  int_reason : val;
  int_handlers : list (nat * call_args);
  int_newid : nat
}.

(** [IO.interruption(reason)] *)
Definition IO_interruption (reason : val) : interruption := mkInterruption reason [] 0.

(** [mark(M, input, success, failure)]: registers a handler under a new id
    and calls [success]. *)
Definition mark (a : call_args) (i : interruption) : interruption * list instr :=
  let id := S (int_newid i) in
  (mkInterruption (int_reason i) (int_handlers i ++ [(id, a)]) id,
   [ICall (arg_M a) (arg_success a) (arg_input a) drain (arg_failure a)]).

(** [delete handlers[id]] *)
Definition delete_handler (id : nat) (hs : list (nat * call_args)) : list (nat * call_args) :=
  List.filter (fun h => negb (Nat.eqb (fst h) id)) hs.

(** The handler registered under [id] by the call [a] of [mark]:
    [delete handlers[id]; M.delay(0, IO.raise('interrupted'),
    {reason: reason, input: input}, success, failure)]. *)
Definition fire_handler (reason : val) (h : nat * call_args)
    (s : list (nat * call_args) * state) : list (nat * call_args) * state :=
  (delete_handler (fst h) (fst s),
   delay (arg_M (snd h)) 0 (raise_ (VStr "interrupted"))
         (VObj Object_ [("reason", reason); ("input", arg_input (snd h))])
         (arg_success (snd h)) (arg_failure (snd h)) (snd s)).

(** [interrupt(M, input, success, failure)]: calls every handler that is in
    the table when it starts, then calls [success]. *)
Definition interrupt (a : call_args) (i : interruption) (st : state)
    : interruption * state * list instr :=
  let keys := int_handlers i in
  let '(hs, st') := fold_left (fun s h => fire_handler (int_reason i) h s) keys
                              (int_handlers i, st) in
  (mkInterruption (int_reason i) hs (int_newid i), st',
   [ICall (arg_M a) (arg_success a) (arg_input a) drain (arg_failure a)]).

Inductive interruption_op :=
| Mark (a : call_args)
| Interrupt (a : call_args).

(** A sequence of calls of [mark] and [interrupt]. *)
Fixpoint interruption_run (ops : list interruption_op) (i : interruption) (st : state)
    : interruption * state :=
  match ops with
  | [] => (i, st)
  | Mark a :: rest => interruption_run rest (fst (mark a i)) st
  | Interrupt a :: rest =>
      let '(i', st', _) := interrupt a i st in interruption_run rest i' st'
  end.

(** The task by which the sequence marked by the call [a] is interrupted. *)
Definition interrupted_task (reason : val) (a : call_args) : task :=
  TDelayed (arg_M a) (raise_ (VStr "interrupted"))
           (VObj Object_ [("reason", reason); ("input", arg_input a)])
           (arg_success a) (arg_failure a).

Definition marks (ops : list interruption_op) : list call_args :=
  flat_map (fun op => match op with
                      | Mark a => [a]
                      | Interrupt _ => []
                      end) ops.

(** ** [IO.add] and [IO.collectUntil] *)




(** One activation of the action made by [IO.collectUntil(test)], on the
    accumulator [acc]: the new accumulator and the call made.  The array
    handed on is the accumulator itself; the value given here is its content at
    the time of the call.  Without a test function the test is
    [input === undefined]. *)
Definition collectUntil_ (test : val -> bool) (M : nat) (input : val) (success failure : action)
    (acc : list val) : list val * instr :=
  if test input then (acc, ICall M drain (VArr acc) drain failure)
  else (acc ++ [input], ICall M success (VArr (acc ++ [input])) drain failure).

Definition is_undefined (v : val) : bool :=
  match v with
  | VUndef => true
  | _ => false
  end.

(** The accumulator after the inputs [xs], all with the same orchestrator and
    continuations. *)
Definition collected_after (test : val -> bool) (M : nat) (success failure : action)
    (xs : list val) (acc : list val) : list val :=
  fold_left (fun acc x => fst (collectUntil_ test M x success failure acc)) xs acc.

(** The call made by the body of [IO.filter(pred)]:
    [M.call(pred(input) ? success : pass, input, M.drain, failure)]. *)
Definition filter_ (pred : val -> bool) (M : nat) (input : val) (success failure : action)
    : instr :=
  ICall M (if pred input then success else pass) input drain failure.

(** The implementation of [chain] that the source gives as the simplest
    one: [actions.reduce(seq, pass)]. *)
Definition reduce_seq (actions : list action) : action := fold_left seq actions pass.

(** Continuations built from [M.drain] by [seq] only. *)
Fixpoint drains (a : action) : bool :=
  match a with
  | drain => true
  | seq a1 a2 => drains a1 && drains a2
  | _ => false
  end.

(** A chain in which an error is raised between two runs of probes. *)
Definition raising_chain (tags1 : list string) (e : val) (tags2 : list string) : list action :=
  probes tags1 ++ raise_ e :: probes tags2.


(** * Proofs *)

(** ** Framing: what the bodies leave alone *)

Lemma depth_lookup_own fuel cs M p d :
  cs !! M = Some (C_orch p (Some d)) -> depth_lookup fuel cs M = d.
Proof. intros H. destruct fuel; simpl; rewrite H; destruct p; reflexivity. Qed.

Lemma pending_deferred_app M q1 q2 :
  pending_deferred M (q1 ++ q2) = pending_deferred M q1 + pending_deferred M q2.
Proof.
  induction q1 as [|t q1 IH]; simpl; [lia|].
  destruct t; rewrite IH; lia.
Qed.

Lemma frame_refl st : frame st st.
Proof. repeat split; lia. Qed.

Lemma frame_trans st1 st2 st3 : frame st1 st2 -> frame st2 st3 -> frame st1 st3.
Proof. intros (a & b & c & d) (a' & b' & c' & d'). repeat split; try congruence; lia. Qed.

Lemma frame_rooted st st' : frame st st' -> rooted st -> rooted st'.
Proof. intros (a & b & c & d) [(p & x & H) ?]. split; [exists p, x; congruence | lia]. Qed.

Lemma frame_with_stack k st : frame st (with_stack k st).
Proof. unfold frame; simpl; repeat split; lia. Qed.

Lemma frame_push k st : frame st (push k st).
Proof. unfold frame; simpl; repeat split; lia. Qed.

Lemma frame_record tag v st : frame st (record tag v st).
Proof. unfold frame; simpl; repeat split; lia. Qed.

Lemma frame_with_timers q now st : frame st (with_timers q now st).
Proof. unfold frame; simpl; repeat split; lia. Qed.

Lemma frame_delay M ms a input s f st : frame st (delay M ms a input s f st).
Proof.
  unfold delay, frame. destruct (0 <? ms); simpl;
    rewrite ?pending_deferred_app; simpl; repeat split; lia.
Qed.

Lemma frame_nextTick_delayed M a input s f st :
  frame st (nextTick (TDelayed M a input s f) st).
Proof.
  unfold frame; simpl. rewrite pending_deferred_app; simpl. repeat split; lia.
Qed.

Lemma frame_set_cell c x y st :
  rooted st -> cells st !! c = Some x ->
  match x with C_orch _ _ => False | _ => True end ->
  frame st (set_cell c y st).
Proof.
  intros [(p & d & H) ?] Hc Hx. unfold frame; simpl.
  rewrite lookup_insert_ne; [repeat split; lia|].
  intros ->. rewrite H in Hc. injection Hc as <-. exact Hx.
Qed.

Lemma frame_alloc c st : rooted st -> frame st (snd (alloc c st)).
Proof.
  intros [_ H]. unfold frame; simpl. rewrite lookup_insert_ne by lia.
  repeat split; lia.
Qed.

Lemma fork_launch_frame c M n input s f actions : forall i st,
  rooted st -> frame st (fork_launch c M n input s f i actions st).
Proof.
  induction actions as [|a rest IH]; intros i st Hr; simpl.
  - apply frame_refl.
  - eapply frame_trans; [|apply IH].
    + eapply frame_trans; [apply (frame_alloc (C_orch (Some M) None)), Hr | apply frame_delay].
    + eapply frame_rooted; [|exact Hr].
      eapply frame_trans; [apply (frame_alloc (C_orch (Some M) None)), Hr | apply frame_delay].
Qed.

Lemma frame_set_cell_after c x y st st1 :
  rooted st -> cells st !! c = Some x ->
  match x with C_orch _ _ => False | _ => True end ->
  frame st st1 -> frame st (set_cell c y st1).
Proof.
  intros [(p & d & H) ?] Hc Hx (a & b & e & g). unfold frame; simpl.
  rewrite lookup_insert_ne; [repeat split; solve [assumption | lia]|].
  intros ->. rewrite H in Hc. injection Hc as <-. exact Hx.
Qed.

Lemma frame_alloc_after c st st1 p st2 :
  rooted st -> frame st st1 -> alloc c st1 = (p, st2) -> frame st st2.
Proof.
  intros Hr Hf [= <- <-]. eapply frame_trans; [exact Hf|].
  apply (frame_alloc c). eapply frame_rooted; eassumption.
Qed.

Lemma frame_alloc_snd c st st1 :
  rooted st -> frame st st1 -> frame st (snd (alloc c st1)).
Proof. intros Hr Hf. eapply frame_alloc_after; [exact Hr | exact Hf | reflexivity]. Qed.

Lemma frame_set_fresh c y st st1 p st2 z :
  rooted st -> frame st st1 -> alloc c st1 = (p, st2) ->
  frame st z -> frame st (set_cell p y z).
Proof.
  intros [Hp Hn] (a & b & e & g) [= <- <-] (a' & b' & e' & g'). unfold frame; simpl.
  rewrite lookup_insert_ne by lia. repeat split; solve [assumption | lia].
Qed.

Arguments set_cell : simpl never.
Arguments alloc : simpl never.
Arguments push : simpl never.
Arguments record : simpl never.
Arguments delay : simpl never.
Arguments nextTick : simpl never.
Arguments with_stack : simpl never.
Arguments with_ticks : simpl never.
Arguments with_timers : simpl never.
Arguments set_depth : simpl never.
Arguments get_depth : simpl never.
Arguments fork_launch : simpl never.

Ltac frame_tac :=
  lazymatch goal with
  | H : frame ?st ?st1 |- frame ?st ?st1 => exact H
  | |- frame ?st ?st => apply frame_refl
  | H : alloc _ _ = (?p, _) |- frame ?st (set_cell ?p ?y ?st1) =>
      eapply (frame_set_fresh _ y st _ p _ st1);
      [assumption | | exact H | frame_tac]; frame_tac
  | |- frame ?st (set_cell ?c ?y ?st1) =>
      eapply (frame_set_cell_after c _ y st st1);
      [assumption | eassumption | exact I | frame_tac]
  | |- frame ?st (push _ ?st1) => eapply frame_trans; [|apply frame_push]; frame_tac
  | |- frame ?st (with_stack _ ?st1) => eapply frame_trans; [|apply frame_with_stack]; frame_tac
  | |- frame ?st (record _ _ ?st1) => eapply frame_trans; [|apply frame_record]; frame_tac
  | |- frame ?st (delay _ _ _ _ _ _ ?st1) => eapply frame_trans; [|apply frame_delay]; frame_tac
  | |- frame ?st (nextTick (TDelayed _ _ _ _ _) ?st1) =>
      eapply frame_trans; [|apply frame_nextTick_delayed]; frame_tac
  | |- frame ?st (fork_launch _ _ _ _ _ _ _ _ ?st1) =>
      eapply frame_trans; [|apply fork_launch_frame; eapply frame_rooted; [|eassumption]];
      frame_tac
  | H : alloc _ ?st1 = (_, ?st2) |- frame ?st ?st2 =>
      eapply (frame_alloc_after _ st st1); [assumption | | exact H]; frame_tac
  | |- frame ?st (mkState _ _ (<[next ?st1 := ?c]> (cells ?st1)) _ _ _ _ _ _) =>
      change (frame st (snd (alloc c st1)));
      apply frame_alloc_snd; [assumption | frame_tac]
  end.

Lemma assign_keys_frame kv input st input' st' :
  rooted st -> assign_keys kv input st = Some (input', st') -> frame st st'.
Proof.
  intros Hr. unfold assign_keys.
  destruct kv, input; intros H; simplify_eq; try apply frame_refl;
    repeat case_match; simplify_eq; try apply frame_refl; frame_tac.
Qed.

Lemma body_frame a M input s f st :
  rooted st -> frame st (outcome_state (body a M input s f st)).
Proof.
  intros Hr. destruct a; simpl; repeat case_match; simpl; subst;
    try (eapply assign_keys_frame; eassumption);
    try frame_tac.
Qed.

(** ** The depth counter of [ExM.call] *)

Lemma depth_inv_rooted st : depth_inv st -> rooted st.
Proof. intros (d & H & Hn & _). split; [eauto | exact Hn]. Qed.

Lemma depth_inv_frame st st' : depth_inv st -> frame st st' -> depth_inv st'.
Proof.
  intros (d & H & Hn & Hm & Hd) (a & b & c & e). exists d.
  rewrite a, c, e. repeat split; solve [assumption | lia].
Qed.

Lemma pending_deferred_nonneg M q : 0 <= pending_deferred M q.
Proof. induction q as [|[] q IH]; simpl; try destruct (Nat.eqb _ _); lia. Qed.

Lemma depth_inv_with_stack st k : depth_inv st -> depth_inv (with_stack k st).
Proof. intros H. exact H. Qed.

Lemma get_depth_root st d :
  cells st !! Ex = Some (C_orch None (Some d)) -> get_depth Ex st = d.
Proof. apply depth_lookup_own. Qed.

Lemma depth_inv_call M a input s f st :
  depth_inv st -> depth_inv (call M a input s f st).
Proof.
  intros (d & H & Hn & Hm & Hd). unfold call, depth_inv.
  pose proof (pending_deferred_nonneg Ex (ticks st)) as Hp.
  destruct (Nat.eq_dec M Ex) as [->|Hne].
  - rewrite (get_depth_root st d H).
    destruct (d <? maxdepth st) eqn:E; simpl; rewrite H; simpl;
      rewrite lookup_insert_eq; eexists; (split; [reflexivity|]).
    + apply Z.ltb_lt in E. repeat split; solve [assumption | lia].
    + apply Z.ltb_ge in E. rewrite pending_deferred_app. simpl.
      repeat split; solve [assumption | lia].
  - destruct (get_depth M st <? maxdepth st); simpl;
      rewrite lookup_insert_ne by assumption; exists d;
      rewrite ?pending_deferred_app; simpl;
      destruct M; try congruence; simpl;
      repeat split; solve [assumption | lia].
Qed.

Lemma depth_inv_run_task t q st :
  depth_inv st ->
  (ticks st = t :: q -> depth_inv (run_task t (with_ticks q st))) /\
  (forall tq due, depth_inv (run_task t (with_timers tq due st))).
Proof.
  intros (d & H & Hn & Hm & Hd).
  assert (Hq := pending_deferred_nonneg Ex q).
  assert (Hq' := pending_deferred_nonneg Ex (ticks st)).
  split; [intros Ht; rewrite Ht in Hd|intros tq due];
    destruct t as [M a i s f|M a i s f]; simpl in *; unfold depth_inv; simpl.
  - destruct M; simpl in *.
    + rewrite H, lookup_insert_eq. eexists; split; [reflexivity|].
      repeat split; solve [assumption | lia].
    + rewrite lookup_insert_ne by lia. exists d. repeat split; solve [assumption | lia].
  - exists d. repeat split; solve [assumption | lia].
  - destruct M; simpl in *.
    + rewrite H, lookup_insert_eq. eexists; split; [reflexivity|].
      repeat split; solve [assumption | lia].
    + rewrite lookup_insert_ne by lia. exists d. repeat split; solve [assumption | lia].
  - exists d. repeat split; solve [assumption | lia].
Qed.

Lemma depth_inv_exec i st : depth_inv st -> depth_inv (exec i st).
Proof.
  intros Hd. assert (Hr := depth_inv_rooted st Hd).
  destruct i; simpl; try exact Hd.
  - apply depth_inv_call, Hd.
  - pose proof (body_frame a M input success failure st Hr) as Hf.
    destruct (body a M input success failure st); simpl in Hf.
    + eapply depth_inv_frame; [exact Hd|]. frame_tac.
    + eapply depth_inv_frame; [exact Hd|]. frame_tac.
  - eapply depth_inv_frame; [exact Hd|]. destruct c; simpl; frame_tac.
  - eapply depth_inv_frame; [exact Hd|]. destruct t; simpl; repeat case_match; frame_tac.
  - eapply depth_inv_frame; [exact Hd|]. repeat case_match; frame_tac.
  - eapply depth_inv_frame; [exact Hd|]. repeat case_match; frame_tac.
  - eapply depth_inv_frame; [exact Hd|]. repeat case_match; frame_tac.
  - eapply depth_inv_frame; [exact Hd|]. repeat case_match; frame_tac.
  - eapply depth_inv_frame; [exact Hd|]. repeat case_match; frame_tac.
Qed.

Lemma depth_inv_step st st' : depth_inv st -> step st = Some st' -> depth_inv st'.
Proof.
  intros Hd. unfold step.
  destruct (stack st) as [|i k] eqn:Hs.
  - destruct (ticks st) as [|t q] eqn:Ht.
    + destruct (timers st) as [|[due t] tq]; [discriminate|].
      intros [= <-]. apply (depth_inv_run_task t [] st Hd).
    + intros [= <-]. apply (depth_inv_run_task t q st Hd), Ht.
  - intros [= <-]. apply depth_inv_exec. exact Hd.
Qed.

Lemma depth_inv_run n : forall st, depth_inv st -> depth_inv (run n st).
Proof.
  induction n as [|n IH]; intros st Hd; simpl; [exact Hd|].
  destruct (step st) eqn:E; [|exact Hd].
  apply IH. eapply depth_inv_step; eassumption.
Qed.

Lemma call_enters M a input s f st :
  get_depth M st < maxdepth st ->
  call M a input s f st =
    push [IApply M a input s f; ITryEnd M input s f]
         (set_depth M (get_depth M st + 1) st).
Proof. intros H. unfold call. apply Z.ltb_lt in H. rewrite H. reflexivity. Qed.

Lemma call_defers M a input s f st :
  maxdepth st <= get_depth M st ->
  call M a input s f st =
    nextTick (TDeferred M a input s f) (set_depth M (get_depth M st + 1) st).
Proof. intros H. unfold call. apply Z.ltb_ge in H. rewrite H. reflexivity. Qed.

Lemma get_set_depth M d st : get_depth M (set_depth M d st) = d.
Proof.
  unfold get_depth, set_depth, set_cell. simpl.
  eapply depth_lookup_own. apply lookup_insert_eq.
Qed.

Lemma depth_inv_world m cap input a : 1 <= m -> depth_inv (IO_run Ex input a (world m cap)).
Proof.
  intros Hm. exists 0. simpl. repeat split; try lia. 
Qed.

(** C3, as the code has it.  On the default orchestrator with
    [maxdepth >= 1], at every moment of every run the depth counter is
    non-negative and is at most [maxdepth] plus the number of deferred calls
    still waiting for their tick: [call] increments the counter also when it
    defers.  An action is entered only while the counter (before the
    increment) is below [maxdepth]; otherwise the call goes to the next tick,
    where the counter is set to [min(0, maxdepth - 1)], that is to 0, and
    the call is made again and then enters. *)
Theorem depth_counter_budget (m cap : Z) (input : val) (a : action) (n : nat) :
  1 <= m ->
  let st := run n (IO_run Ex input a (world m cap)) in
  (0 <= get_depth Ex st <= maxdepth st + pending_deferred Ex (ticks st)) /\
  (forall M b x s f (st : state),
      get_depth M st < maxdepth st ->
      exec (ICall M b x s f) st =
        push [IApply M b x s f; ITryEnd M x s f] (set_depth M (get_depth M st + 1) st)) /\
  (forall M b x s f (st : state),
      maxdepth st <= get_depth M st ->
      exec (ICall M b x s f) st =
        nextTick (TDeferred M b x s f) (set_depth M (get_depth M st + 1) st) /\
      maxdepth st < get_depth M (exec (ICall M b x s f) st)) /\
  (forall M b x s f (st : state),
      1 <= maxdepth st ->
      let st' := run_task (TDeferred M b x s f) st in
      get_depth M st' = 0 /\
      stack st' = ICall M b x s f :: stack st /\
      exec (ICall M b x s f) (with_stack (stack st) st') =
        push [IApply M b x s f; ITryEnd M x s f] (set_depth M 1 st)).
Proof.
  intros Hm st. repeat split.
  - destruct (depth_inv_run n _ (depth_inv_world m cap input a Hm)) as (d & H & _ & _ & Hd).
    fold st in H, Hd. rewrite (get_depth_root st d H). lia.
  - destruct (depth_inv_run n _ (depth_inv_world m cap input a Hm)) as (d & H & _ & _ & Hd).
    fold st in H, Hd. rewrite (get_depth_root st d H). lia.
  - intros. simpl. apply call_enters. assumption.
  - simpl. apply call_defers. assumption.
  - simpl. rewrite call_defers by assumption.
    change (get_depth M (nextTick ?t ?s)) with (get_depth M s).
    rewrite get_set_depth.
    lia.
  - simpl. rewrite Z.min_l by lia.
    change (get_depth M (push ?t ?s)) with (get_depth M s). apply get_set_depth.
  - simpl. rewrite Z.min_l by lia.
    unfold call.
    change (get_depth M (with_stack ?t ?s)) with (get_depth M s).
    change (get_depth M (push ?t ?s)) with (get_depth M s).
    rewrite get_set_depth.
    assert ((0 <? maxdepth
                    (with_stack (stack st0)
                       (push [ICall M b x s f] (set_depth M 0 st0)))) = true) as ->.
    { apply Z.ltb_lt. simpl. lia. }
    unfold push, set_depth, set_cell, with_stack, with_cells. simpl.
    f_equal. rewrite lookup_insert_eq, insert_insert_eq. reflexivity.
Qed.

Lemma depth_counter_budget_witness :
  1 <= 50 /\
  0 <= get_depth Ex (run 101 deep_chain)
    <= maxdepth (run 101 deep_chain) + pending_deferred Ex (ticks (run 101 deep_chain)).
Proof.
  split; [lia|].
  exact (proj1 (depth_counter_budget 50 8 (VNum 1) (chain (repeat pass 30)) 101
                  ltac:(lia))).
Defined.

(** C3 as stated fails.  Running a chain of thirty [pass] on the default
    orchestrator, after 101 steps the counter is 51 with [maxdepth] 50, in
    the middle of the synchronous chain (the enclosing calls have not
    returned yet); and when the deferred call is made again, 51 steps later,
    the counter has been reset to 0, which is not negative. *)
Lemma depth_counter_counterexample :
  ~ (forall n, 0 <= get_depth Ex (run n deep_chain) <= maxdepth (run n deep_chain)) /\
  (get_depth Ex (run 101 deep_chain) = 51 /\
   maxdepth (run 101 deep_chain) = 50 /\
   length (stack (run 101 deep_chain)) = 50%nat /\
   length (ticks (run 101 deep_chain)) = 1%nat) /\
  (get_depth Ex (run 152 deep_chain) = 0 /\
   exists b x s f, stack (run 152 deep_chain) = [ICall Ex b x s f]).
Proof.
  split; [|split].
  - intros H. specialize (H 101%nat). vm_compute in H. destruct H as [_ H]. apply H. reflexivity.
  - vm_compute. repeat split.
  - split; [vm_compute; reflexivity|]. vm_compute. repeat eexists.
Qed.

(** ** Running to the next instruction *)

Lemma run_add n m st : run (n + m) st = run m (run n st).
Proof.
  revert st. induction n as [|n IH]; intros st; simpl; [reflexivity|].
  destruct (step st) eqn:E; [apply IH|].
  destruct m; simpl; [reflexivity | rewrite E; reflexivity].
Qed.

Lemma reach_refl st : reach st st.
Proof. exists 0%nat. split; reflexivity. Qed.

Lemma reach_trans st1 st2 st3 : reach st1 st2 -> reach st2 st3 -> reach st1 st3.
Proof.
  intros (n & H1 & T1) (m & H2 & T2). exists (n + m)%nat.
  rewrite run_add, H1, H2. split; congruence.
Qed.

Lemma reach_step st st' : step st = Some st' -> trace st' = trace st -> reach st st'.
Proof. intros H T. exists 1%nat. simpl. rewrite H. split; [reflexivity | exact T]. Qed.

Lemma arrives_now i st : at_instr i st -> arrives st i.
Proof. intros H. exists st. split; [apply reach_refl | exact H]. Qed.

Lemma arrives_after st st' i : reach st st' -> arrives st' i -> arrives st i.
Proof.
  intros H (st'' & H' & Ha). exists st''. split; [eapply reach_trans; eassumption | exact Ha].
Qed.

(** Returning from the enclosing calls. *)
Lemma run_inert k : forall st,
  stack st = k -> Forall inert k -> reach st (with_stack [] st).
Proof.
  induction k as [|i k IH]; intros st Hs Hk.
  - destruct st; simpl in *; subst. apply reach_refl.
  - inversion Hk as [|? ? Hi Hk']; subst.
    eapply reach_trans.
    + apply (reach_step st (with_stack k st)); [|reflexivity].
      unfold step. rewrite Hs. destruct i; simpl in Hi; try contradiction; reflexivity.
    + apply (IH (with_stack k st)); [reflexivity | exact Hk'].
Qed.

Lemma trace_call M a x s f st : trace (call M a x s f st) = trace st.
Proof. unfold call. destruct (_ <? _); reflexivity. Qed.

(** [M.call] arrives at the action, at once or after one tick. *)
Lemma call_arrives M a x s f st :
  at_instr (ICall M a x s f) st -> arrives st (IApply M a x s f).
Proof.
  intros (k & Hs & Hk & Ht).
  destruct (get_depth M st <? maxdepth st) eqn:E.
  - exists (call M a x s f (with_stack k st)). split.
    + apply reach_step; [unfold step; rewrite Hs; reflexivity|].
      unfold call. change (get_depth M (with_stack k st)) with (get_depth M st).
      change (maxdepth (with_stack k st)) with (maxdepth st). rewrite E. reflexivity.
    + unfold call. change (get_depth M (with_stack k st)) with (get_depth M st).
      change (maxdepth (with_stack k st)) with (maxdepth st). rewrite E.
      exists (ITryEnd M x s f :: k). repeat split; [constructor; [exact I | exact Hk] | exact Ht].
  - set (st1 := nextTick (TDeferred M a x s f)
                  (set_depth M (get_depth M st + 1) (with_stack k st))).
    assert (H1 : reach st st1).
    { apply reach_step; [|reflexivity]. unfold step. rewrite Hs. simpl. unfold call.
      change (get_depth M (with_stack k st)) with (get_depth M st).
      change (maxdepth (with_stack k st)) with (maxdepth st). rewrite E. reflexivity. }
    set (st2 := with_stack [] st1).
    assert (H2 : reach st1 st2) by (apply (run_inert k); [reflexivity | exact Hk]).
    set (st3 := run_task (TDeferred M a x s f) (with_ticks [] st2)).
    assert (H3 : reach st2 st3).
    { apply reach_step; [|reflexivity]. unfold step. simpl. rewrite Ht. reflexivity. }
    set (st4 := exec (ICall M a x s f) (with_stack [] st3)).
    assert (H4 : reach st3 st4).
    { apply reach_step; [reflexivity|].
      change (trace (call M a x s f (with_stack [] st3)) = trace (with_stack [] st3)).
      apply trace_call. }
    exists st4. split.
    + eapply reach_trans; [exact H1|]. eapply reach_trans; [exact H2|].
      eapply reach_trans; [exact H3 | exact H4].
    + unfold st4. simpl. unfold call.
      change (get_depth M (with_stack [] st3)) with (get_depth M st3).
      unfold st3 at 1. simpl.
      change (get_depth M (push ?t ?s)) with (get_depth M s).
      rewrite get_set_depth.
      assert ((Z.min 0 (maxdepth st - 1) <? maxdepth st) = true) as ->.
      { apply Z.ltb_lt. lia. }
      exists [ITryEnd M x s f]. repeat split. constructor; [exact I | constructor].
Qed.

Lemma call_enters_try M a x s f st :
  at_instr (ICall M a x s f) st ->
  exists st' k, reach st st' /\
    stack st' = IApply M a x s f :: ITryEnd M x s f :: k /\
    Forall inert k /\ ticks st' = [] /\
    timers st' = timers st /\ clock st' = clock st.
Proof.
  intros (k & Hs & Hk & Hq).
  destruct (get_depth M st <? maxdepth st) eqn:E.
  - exists (call M a x s f (with_stack k st)), k. split; [|split; [|split; [|split]]].
    + apply reach_step; [unfold step; rewrite Hs; reflexivity|].
      rewrite trace_call. reflexivity.
    + unfold call. change (get_depth M (with_stack k st)) with (get_depth M st).
      change (maxdepth (with_stack k st)) with (maxdepth st). rewrite E. reflexivity.
    + exact Hk.
    + unfold call. change (get_depth M (with_stack k st)) with (get_depth M st).
      change (maxdepth (with_stack k st)) with (maxdepth st). rewrite E. exact Hq.
    + unfold call. change (get_depth M (with_stack k st)) with (get_depth M st).
      change (maxdepth (with_stack k st)) with (maxdepth st). rewrite E.
      split; reflexivity.
  - set (st1 := nextTick (TDeferred M a x s f)
                  (set_depth M (get_depth M st + 1) (with_stack k st))).
    assert (H1 : reach st st1).
    { apply reach_step; [|reflexivity]. unfold step. rewrite Hs. simpl. unfold call.
      change (get_depth M (with_stack k st)) with (get_depth M st).
      change (maxdepth (with_stack k st)) with (maxdepth st). rewrite E. reflexivity. }
    assert (H2 : reach st1 (with_stack [] st1)) by (apply (run_inert k); [reflexivity | exact Hk]).
    set (st3 := run_task (TDeferred M a x s f) (with_ticks [] (with_stack [] st1))).
    assert (H3 : reach (with_stack [] st1) st3).
    { apply reach_step; [|reflexivity]. unfold step. simpl. rewrite Hq. reflexivity. }
    assert (H4 : step st3 = Some (push [IApply M a x s f; ITryEnd M x s f]
                                    (set_depth M (Z.min 0 (maxdepth st - 1) + 1)
                                       (with_stack [] st3)))).
    { unfold step, st3. simpl. unfold call.
      change (get_depth M (with_stack [] ?s)) with (get_depth M s).
      change (get_depth M (push ?t ?s)) with (get_depth M s).
      rewrite get_set_depth.
      change (maxdepth (with_stack [] (push [ICall M a x s f]
                (set_depth M (Z.min 0 (maxdepth st - 1))
                   (with_ticks [] (with_stack [] st1)))))) with (maxdepth st).
      assert ((Z.min 0 (maxdepth st - 1) <? maxdepth st) = true) as ->
          by (apply Z.ltb_lt; lia).
      reflexivity. }
    eexists _, []. split; [|split; [|split; [|split]]].
    + eapply reach_trans; [exact H1|]. eapply reach_trans; [exact H2|].
      eapply reach_trans; [exact H3|]. apply reach_step; [exact H4 | reflexivity].
    + reflexivity.
    + constructor.
    + reflexivity.
    + split; reflexivity.
Qed.


Lemma arrives_then st i j :
  arrives st i -> (forall st', at_instr i st' -> arrives st' j) -> arrives st j.
Proof.
  intros (st' & Hr & Ha) H. eapply arrives_after; [exact Hr | apply H, Ha].
Qed.

(** A body that only makes one call. *)
Lemma apply_arrives M a x s f j st :
  at_instr (IApply M a x s f) st ->
  (forall s0, body a M x s f s0 = Normal s0 [j]) ->
  arrives st j.
Proof.
  intros (k & Hs & Hk & Ht) Hb.
  exists (push [j] (with_stack k st)). split.
  - apply reach_step; [|reflexivity].
    unfold step. rewrite Hs. simpl. rewrite Hb. reflexivity.
  - exists k. repeat split; assumption.
Qed.

Lemma call_apply_arrives M a x s f j st :
  at_instr (ICall M a x s f) st ->
  (forall s0, body a M x s f s0 = Normal s0 [j]) ->
  arrives st j.
Proof.
  intros Ha Hb. eapply arrives_then; [apply call_arrives, Ha|].
  intros st' Ha'. eapply apply_arrives; eassumption.
Qed.

Lemma autobranch_arrives M a s f v st :
  at_instr (ICallback (autobranch M a s f) v) st -> arrives st (ICall M a v s f).
Proof.
  intros (k & Hs & Hk & Ht).
  exists (push [ICall M a v s f] (with_stack k st)). split.
  - apply reach_step; [|reflexivity]. unfold step. rewrite Hs. reflexivity.
  - exists k. repeat split; assumption.
Qed.

(** ** [catch]: what the handler is given *)

Lemma catch_enters_region M onfail x start traceback st :
  at_instr (ICall M (catch_ onfail) x start traceback) st ->
  arrives st (IApply M start x drain (catch_frame M onfail start traceback)).
Proof.
  intros H. eapply arrives_then; [eapply call_apply_arrives; [exact H | reflexivity]|].
  intros st' H'. apply call_arrives, H'.
Qed.

Lemma catch_frame_calls_handler M M' onfail start traceback c fields s' f' st :
  at_instr (ICall M' (catch_frame M onfail start traceback) (VObj c fields) s' f') st ->
  arrives st
    (IApply M' onfail
       (VObj c (set_field "restart" (VCb (autobranch M (catch_ onfail) start traceback)) fields))
       (branch (catch_ onfail) start traceback) traceback).
Proof.
  intros H. unfold catch_frame in H.
  eapply arrives_then; [eapply call_apply_arrives; [exact H | reflexivity]|].
  intros st1 H1.
  eapply arrives_then; [eapply call_apply_arrives; [exact H1 | reflexivity]|].
  intros st2 H2. apply call_arrives, H2.
Qed.

Lemma handler_success_restarts M' onfail start traceback v s' f' st :
  at_instr (ICall M' (branch (catch_ onfail) start traceback) v s' f') st ->
  arrives st (IApply M' start v drain (catch_frame M' onfail start traceback)).
Proof.
  intros H.
  eapply arrives_then; [eapply call_apply_arrives; [exact H | reflexivity]|].
  intros st1 H1. apply catch_enters_region, H1.
Qed.

Lemma raise_arrives M e x k F st :
  at_instr (ICall M (raise_ e) x k F) st ->
  arrives st (ICall M F (IOError M e x k F) drain drain).
Proof. intros H. eapply call_apply_arrives; [exact H | reflexivity]. Qed.








(** ** [err.resume(v)] *)


(** The catch/resume scenario, run to completion. *)
Lemma resume_demo_trace :
  trace (run 200 resume_demo) = [("a", VStr "x"); ("v", VStr "y"); ("b", VStr "y")] /\
  halted (run 200 resume_demo).
Proof. vm_compute. split; reflexivity. Qed.

(** ** The trace only grows *)

Lemma fork_launch_trace c M n input s f actions : forall i st,
  trace (fork_launch c M n input s f i actions st) = trace st.
Proof.
  induction actions as [|a rest IH]; intros i st; [reflexivity|].
  unfold fork_launch; fold fork_launch.
  change (alloc (C_orch (Some M) None) st)
    with (next st, snd (alloc (C_orch (Some M) None) st)).
  cbv beta iota. rewrite IH. unfold delay. simpl. reflexivity.
Qed.

Ltac trace_tac :=
  first [ exists []; rewrite app_nil_r; reflexivity
        | eexists [_]; reflexivity ].

Lemma body_trace a M input s f st :
  exists l, trace (outcome_state (body a M input s f st)) = trace st ++ l.
Proof.
  destruct a; simpl; repeat case_match; simpl; subst; try trace_tac.
  all: try (match goal with
            | H : assign_keys _ _ _ = Some _ |- _ =>
                unfold assign_keys in H; repeat case_match; simplify_eq; trace_tac
            end).
  all: try (unfold delay; case_match; trace_tac).
  exists []. rewrite app_nil_r, fork_launch_trace. reflexivity.
Qed.

Lemma exec_trace i st : exists l, trace (exec i st) = trace st ++ l.
Proof.
  destruct i; simpl.
  1: { rewrite trace_call. trace_tac. }
  1: { destruct (body_trace a M input success failure st) as [l Hl].
       destruct (body a M input success failure st); exists l; exact Hl. }
  all: try match goal with
           | c : callback |- _ => destruct c
           | t : thunk |- _ => destruct t
           end; simpl; repeat case_match; try trace_tac.
  unfold delay; case_match; trace_tac.
Qed.

Lemma step_trace st st' : step st = Some st' -> exists l, trace st' = trace st ++ l.
Proof.
  unfold step. repeat case_match; intros; simplify_eq.
  - match goal with |- context [run_task ?t _] => destruct t end; trace_tac.
  - match goal with |- context [run_task ?t _] => destruct t end; trace_tac.
  - apply (exec_trace _ (with_stack _ st)).
Qed.

Lemma run_trace n : forall st, exists l, trace (run n st) = trace st ++ l.
Proof.
  induction n as [|n IH]; intros st; simpl; [trace_tac|].
  destruct (step st) as [st'|] eqn:E; [|trace_tac].
  destruct (step_trace st st' E) as [l1 H1]. destruct (IH st') as [l2 H2].
  exists (l1 ++ l2). rewrite H2, H1, app_assoc. reflexivity.
Qed.

Lemma run_halted n : forall st, halted st -> run n st = st.
Proof. intros st H. destruct n; simpl; [reflexivity|]. rewrite H. reflexivity. Qed.

Lemma at_instr_not_halted i st : at_instr i st -> ~ halted st.
Proof. intros (k & Hs & _) H. unfold halted, step in H. rewrite Hs in H. discriminate. Qed.

(** A silent loop: when the machine silently reaches a state satisfying
    [P], and from every [P] state silently comes back to a [P] state after at
    least one step, and [P] states are not halted, then nothing is ever
    observed and the machine never halts. *)
Lemma silent_loop (P : state -> Prop) :
  (forall st, P st -> ~ halted st) ->
  (forall st, P st -> exists n, (0 < n)%nat /\ trace (run n st) = trace st /\ P (run n st)) ->
  forall st, (exists n0, trace (run n0 st) = trace st /\ P (run n0 st)) ->
  forall n, trace (run n st) = trace st /\ ~ halted (run n st) /\
            exists n', (n <= n')%nat /\ P (run n' st).
Proof.
  intros Hnh Hloop st (n0 & Ht0 & HP).
  assert (Hio : forall j, exists m, (j <= m)%nat /\ trace (run m st) = trace st /\ P (run m st)).
  { induction j as [|j (m & Hm & Ht & Hp)].
    - exists n0. repeat split; [lia | exact Ht0 | exact HP].
    - destruct (Hloop _ Hp) as (n & Hn & Ht' & Hp').
      exists (m + n)%nat. rewrite run_add. repeat split; [lia | congruence | exact Hp']. }
  intros n. destruct (Hio (S n)) as (m & Hm & Ht & Hp).
  replace m with (n + (m - n))%nat in Ht, Hp by lia.
  rewrite run_add in Ht, Hp.
  split; [|split].
  - destruct (run_trace n st) as [l1 H1].
    destruct (run_trace (m - n) (run n st)) as [l2 H2].
    rewrite H2, H1 in Ht. rewrite <- app_assoc in Ht.
    rewrite <- (app_nil_r (trace st)) in Ht at 2. apply app_inv_head in Ht.
    apply app_eq_nil in Ht. destruct Ht as [-> _]. rewrite H1, app_nil_r. reflexivity.
  - intros Hh. rewrite (run_halted _ _ Hh) in Hp. exact (Hnh _ Hp Hh).
  - exists (n + (m - n))%nat. rewrite run_add. split; [lia | exact Hp].
Qed.

Lemma arrives_later_intro st st1 i :
  step st = Some st1 -> trace st1 = trace st -> arrives st1 i -> arrives_later st i.
Proof.
  intros Hs Ht (st' & (n & Hr & Ht') & Ha).
  exists (S n). simpl. rewrite Hs, Hr. repeat split; [lia | congruence | exact Ha].
Qed.

(** ** [chain([catch(forgive), raise(e)])] *)

Lemma pass_arrives M x k f st :
  at_instr (ICall M pass x k f) st -> arrives st (IApply M k x drain f).
Proof.
  intros H. eapply arrives_then; [eapply call_apply_arrives; [exact H | reflexivity]|].
  intros st1 H1. apply call_arrives, H1.
Qed.

Lemma forgive_chain_enters M e x k f st :
  at_instr (ICall M (chain (forgive_chain e)) x k f) st ->
  arrives st (IApply M (raise_ e) x k
                (catch_frame M forgive (chain_iter (forgive_chain e) 1 k) f)).
Proof.
  intros H.
  eapply arrives_then; [eapply call_apply_arrives; [exact H | reflexivity]|].
  intros st1 H1.
  eapply arrives_then; [eapply call_apply_arrives; [exact H1 | reflexivity]|].
  intros st2 H2.
  eapply arrives_then; [apply catch_enters_region, H2|].
  intros st3 H3.
  eapply arrives_then; [eapply apply_arrives; [exact H3 | reflexivity]|].
  intros st4 H4. apply call_arrives, H4.
Qed.

Lemma forgive_chain_loops M e x k f st :
  let F := catch_frame M forgive (chain_iter (forgive_chain e) 1 k) f in
  at_instr (IApply M (raise_ e) x k F) st ->
  arrives_later st (IApply M (raise_ e) x k F).
Proof.
  intros F (r & Hs & Hr & Ht).
  eapply (arrives_later_intro st (push [ICall M F (IOError M e x k F) drain drain]
                                       (with_stack r st))).
  - unfold step. rewrite Hs. reflexivity.
  - reflexivity.
  - eapply arrives_then.
    + apply (catch_frame_calls_handler M M forgive (chain_iter (forgive_chain e) 1 k) f
               IOError_ (IOError_fields M e x k F) drain drain).
      exists r. repeat split; assumption.
    + intros st1 H1.
      eapply arrives_then; [eapply apply_arrives; [exact H1 | reflexivity]|].
      intros st2 H2.
      eapply arrives_then; [exact (handler_success_restarts _ _ _ _ _ _ _ _ H2)|].
      intros st3 H3.
      eapply arrives_then; [eapply apply_arrives; [exact H3 | reflexivity]|].
      intros st4 H4. apply call_arrives, H4.
Qed.

Lemma forgive_chain_silent M e x k f st :
  at_instr (ICall M (chain (forgive_chain e)) x k f) st ->
  forall n,
    trace (run n st) = trace st /\ ~ halted (run n st) /\
    exists n', (n <= n')%nat /\
      at_instr (IApply M (raise_ e) x k
                  (catch_frame M forgive (chain_iter (forgive_chain e) 1 k) f))
               (run n' st).
Proof.
  intros H.
  apply (silent_loop
           (at_instr (IApply M (raise_ e) x k
                        (catch_frame M forgive (chain_iter (forgive_chain e) 1 k) f)))).
  - intros s0. apply at_instr_not_halted.
  - intros s0 H0. exact (forgive_chain_loops M e x k f s0 H0).
  - destruct (forgive_chain_enters M e x k f st H) as (st' & (n0 & Hr & Ht) & Ha).
    exists n0. rewrite Hr. split; assumption.
Qed.

(** C4, as the code has it.  [forgive] hands the input captured at the
    raise site to the success continuation of the handler, which restarts the
    sequence after the catch: [raise_ e] is entered again with the same
    input, again and again.  Nothing is ever observed, the continuation [k]
    after the chain is never reached, and the run never ends; [pass], called
    the same way, arrives at [k] with its input. *)
Theorem forgive_restarts_forever (M : nat) (e x : val) (k f : action) (st : state) (n : nat) :
  at_instr (ICall M (chain (forgive_chain e)) x k f) st ->
  (trace (run n st) = trace st /\ ~ halted (run n st) /\
   exists n', (n <= n')%nat /\
     at_instr (IApply M (raise_ e) x k
                 (catch_frame M forgive (chain_iter (forgive_chain e) 1 k) f))
              (run n' st)) /\
  (forall st', at_instr (ICall M pass x k f) st' -> arrives st' (IApply M k x drain f)).
Proof.
  intros H. split.
  - apply forgive_chain_silent, H.
  - intros st' H'. apply pass_arrives, H'.
Qed.

Lemma forgive_restarts_forever_witness :
  trace (run 1000 forgive_demo) = trace forgive_demo /\ ~ halted (run 1000 forgive_demo).
Proof.
  assert (H : at_instr (ICall Ex (chain (forgive_chain (VStr "e"))) (VStr "x") (tap_ "k") drain)
                forgive_demo).
  { exists []. repeat split. constructor. }
  destruct (forgive_restarts_forever Ex (VStr "e") (VStr "x") (tap_ "k") drain
              forgive_demo 1000 H) as [(Ht & Hh & _) _].
  split; assumption.
Defined.

(** C4 as stated fails: called on ["x"] with a probe as the continuation
    after it, [pass] delivers ["x"] to the probe, and the forgive chain never
    delivers anything. *)
Lemma forgive_law_counterexample :
  trace (run 4 pass_demo) = [("k", VStr "x")] /\
  (forall n, trace (run n forgive_demo) = []).
Proof.
  split; [vm_compute; reflexivity|].
  intros n.
  assert (H : at_instr (ICall Ex (chain (forgive_chain (VStr "e"))) (VStr "x") (tap_ "k") drain)
                forgive_demo).
  { exists []. repeat split. constructor. }
  exact (proj1 (forgive_chain_silent _ _ _ _ _ _ H n)).
Qed.

(** ** Sequences: [chain], [chain_iter], [pass], [IO.probe] *)

Lemma arrives_with_nil st i : arrives st i -> arrives_with [] st i.
Proof.
  intros (st' & (n & Hr & Ht) & Ha). exists n. rewrite Hr, app_nil_r. split; assumption.
Qed.

Lemma arrives_with_now st i : at_instr i st -> arrives_with [] st i.
Proof. intros H. apply arrives_with_nil, arrives_now, H. Qed.

Lemma arrives_with_then e1 e2 st i j :
  arrives_with e1 st i ->
  (forall st', at_instr i st' -> arrives_with e2 st' j) ->
  arrives_with (e1 ++ e2) st j.
Proof.
  intros (n & Ht & Ha) H. destruct (H _ Ha) as (m & Ht' & Ha').
  exists (n + m)%nat. rewrite run_add, Ht', Ht, app_assoc. split; [reflexivity | exact Ha'].
Qed.

Lemma arrives_with_silent_then e st i j :
  arrives st i ->
  (forall st', at_instr i st' -> arrives_with e st' j) ->
  arrives_with e st j.
Proof.
  intros H1 H2. change e with ([] ++ e).
  eapply arrives_with_then; [apply arrives_with_nil, H1 | exact H2].
Qed.

(** [IO.probe]: the function sees the input, then the sequence goes on. *)
Lemma probe_records M t x s f st :
  at_instr (ICall M (tap_ t) x s f) st ->
  arrives_with [(t, x)] st (IApply M s x drain f).
Proof.
  intros H. eapply arrives_with_silent_then; [apply call_arrives, H|].
  intros st1 (k & Hs & Hk & Ht).
  change [(t, x)] with ([(t, x)] ++ []).
  eapply arrives_with_then.
  - exists 1%nat. simpl. unfold step. rewrite Hs. simpl. split; [reflexivity|].
    exists k. repeat split; assumption.
  - intros st2 H2. apply arrives_with_nil, call_arrives, H2.
Qed.

Lemma chain_iter_end actions i k :
  (length actions <= i)%nat -> chain_iter actions i k = k.
Proof. intros H. unfold chain_iter. apply Nat.leb_le in H. rewrite H. reflexivity. Qed.

Lemma chain_iter_inside actions i k :
  (i < length actions)%nat -> chain_iter actions i k = chain_iter_ actions i k.
Proof. intros H. unfold chain_iter. apply Nat.leb_gt in H. rewrite H. reflexivity. Qed.

(** One link of a chain: action [i] is entered with the rest of the chain as
    its success continuation and the failure continuation unchanged. *)
Lemma chain_iter_arrives actions i a M x k s f st :
  actions !! i = Some a ->
  at_instr (ICall M (chain_iter actions i k) x s f) st ->
  arrives st (IApply M a x (chain_iter actions (S i) k) f).
Proof.
  intros Ha H. rewrite chain_iter_inside in H by (eapply lookup_lt_Some; exact Ha).
  eapply arrives_then.
  - eapply call_apply_arrives; [exact H|]. intros s0. simpl. rewrite Ha. reflexivity.
  - intros st1 H1. apply call_arrives, H1.
Qed.

Lemma probes_from M x k f : forall post pre st,
  at_instr (ICall M (chain_iter (probes (pre ++ post)) (length pre) k) x drain f) st ->
  arrives_with (probe_events post x) st (IApply M k x drain f).
Proof.
  induction post as [|t post IH]; intros pre st H.
  - rewrite app_nil_r in H. rewrite chain_iter_end in H by (unfold probes; rewrite length_map; lia).
    apply arrives_with_nil, call_arrives, H.
  - assert (Ht : probes (pre ++ t :: post) !! length pre = Some (tap_ t)).
    { unfold probes. rewrite list_lookup_fmap, lookup_app_r, Nat.sub_diag by lia. reflexivity. }
    eapply arrives_with_silent_then; [eapply chain_iter_arrives; [exact Ht | exact H]|].
    intros st1 (r & Hs & Hr & Hq).
    change (probe_events (t :: post) x) with ([(t, x)] ++ probe_events post x).
    eapply arrives_with_then.
    + exists 1%nat. simpl. unfold step. rewrite Hs. simpl. split; [reflexivity|].
      exists r. repeat split; assumption.
    + intros st2 H2. apply (IH (pre ++ [t])).
      rewrite <- app_assoc, length_app. simpl.
      replace (length pre + 1)%nat with (S (length pre)) by lia. exact H2.
Qed.

(** X1.  A chain of probes, called through the orchestrator in any state
    of the depth counter, records the input once for every probe, in the
    order of the chain, and then enters the continuation after the chain with
    the same input, [M.drain] as its success continuation and the failure
    continuation of the chain.  The empty chain records nothing. *)
Theorem chain_of_probes_in_order (tags : list string) (M : nat) (x : val) (k f : action)
    (st : state) :
  at_instr (ICall M (chain (probes tags)) x k f) st ->
  arrives_with (probe_events tags x) st (IApply M k x drain f).
Proof.
  intros H. destruct tags as [|t1 [|t2 tags]].
  - apply arrives_with_nil, pass_arrives, H.
  - apply probe_records, H.
  - eapply arrives_with_silent_then.
    + eapply call_apply_arrives; [exact H | reflexivity].
    + intros st1 H1. apply (probes_from M x k f (t1 :: t2 :: tags) []). exact H1.
Qed.

Lemma chain_of_probes_in_order_witness :
  arrives_with [("a", VNum 7); ("b", VNum 7); ("c", VNum 7)]
    (IO_run Ex (VNum 7) (chain (probes ["a"; "b"; "c"])) ExM)
    (IApply Ex drain (VNum 7) drain drain).
Proof.
  apply (chain_of_probes_in_order ["a"; "b"; "c"] Ex (VNum 7) drain drain).
  exists []. repeat split. constructor.
Defined.

(** X2.  [chain([pass, a, pass])] enters [a] with the input and the
    failure continuation of the chain; the success continuation it gives to
    [a], called with any value, enters the continuation after the chain with
    that value.  So the two [pass] are transparent. *)
Theorem chain_pass_identity (a : action) (M : nat) (x : val) (k f : action) (st : state) :
  at_instr (ICall M (chain [pass; a; pass]) x k f) st ->
  arrives st (IApply M a x (chain_iter [pass; a; pass] 2 k) f) /\
  (forall M' v s' f' st',
      at_instr (ICall M' (chain_iter [pass; a; pass] 2 k) v s' f') st' ->
      arrives st' (IApply M' k v drain f')).
Proof.
  intros H. split.
  - eapply arrives_then; [eapply call_apply_arrives; [exact H | reflexivity]|].
    intros st1 H1.
    eapply arrives_then; [eapply (chain_iter_arrives [pass; a; pass] 0 pass); [reflexivity | exact H1]|].
    intros st2 H2.
    eapply arrives_then; [eapply apply_arrives; [exact H2 | reflexivity]|].
    intros st3 H3.
    eapply (chain_iter_arrives [pass; a; pass] 1 a); [reflexivity | exact H3].
  - intros M' v s' f' st' H'.
    eapply arrives_then; [eapply (chain_iter_arrives [pass; a; pass] 2 pass); [reflexivity | exact H']|].
    intros st1 H1.
    eapply arrives_then; [eapply apply_arrives; [exact H1 | reflexivity]|].
    intros st2 H2. apply call_arrives, H2.
Qed.

Lemma chain_pass_identity_witness :
  arrives (IO_run Ex (VNum 7) (chain [pass; tap_ "a"; pass]) ExM)
          (IApply Ex (tap_ "a") (VNum 7) (chain_iter [pass; tap_ "a"; pass] 2 drain) drain).
Proof.
  apply (chain_pass_identity (tap_ "a") Ex (VNum 7) drain drain).
  exists []. repeat split. constructor.
Defined.

(** ** [IO.try] *)

(** X3.  [IO.try(action, onfail)]: when the action raises, the handler is
    entered with the IOError as it was raised (no [restart] is added), with
    the continuation after the try as its success continuation and the outer
    failure as its failure continuation; with [forgive] as the handler the
    input captured at the raise site is delivered to the continuation after
    the try, as [pass] would do; when the action succeeds the handler is not
    involved. *)
Theorem try_joins_success (onfail : action) (M : nat) (e v x : val) (k f : action) :
  (forall st, at_instr (try_ (raise_ e) onfail M x k f) st ->
     arrives st (IApply M onfail (IOError M e x k (branch onfail k f)) k f)) /\
  (forall st, at_instr (try_ (raise_ e) forgive M x k f) st ->
     arrives st (IApply M k x drain f)) /\
  (forall st, at_instr (try_ (supply_ v) onfail M x k f) st ->
     arrives st (IApply M k v drain (branch onfail k f))).
Proof.
  assert (Hh : forall h st, at_instr (try_ (raise_ e) h M x k f) st ->
     arrives st (IApply M h (IOError M e x k (branch h k f)) k f)).
  { intros h st H. unfold try_ in H.
    eapply arrives_then; [apply raise_arrives, H|].
    intros st1 H1.
    eapply arrives_then; [eapply call_apply_arrives; [exact H1 | reflexivity]|].
    intros st2 H2. apply call_arrives, H2. }
  split; [|split].
  - apply Hh.
  - intros st H.
    eapply arrives_then; [apply Hh, H|].
    intros st1 H1.
    eapply arrives_then; [eapply apply_arrives; [exact H1 | reflexivity]|].
    intros st2 H2. apply call_arrives, H2.
  - intros st H. unfold try_ in H.
    eapply arrives_then; [eapply call_apply_arrives; [exact H | reflexivity]|].
    intros st1 H1. apply call_arrives, H1.
Qed.

Lemma try_joins_success_witness :
  arrives (push [try_ (raise_ (VStr "e")) forgive Ex (VNum 1) (tap_ "k") drain] ExM)
          (IApply Ex (tap_ "k") (VNum 1) drain drain).
Proof.
  apply (proj1 (proj2 (try_joins_success forgive Ex (VStr "e") VNull (VNum 1) (tap_ "k") drain))).
  exists []. repeat split. constructor.
Defined.

(** ** A handler that fails: [IO.fail], [giveup] *)

Lemma cb_fail_arrives M f v st :
  at_instr (ICallback (cb_fail M f) v) st -> arrives st (ICall M f v drain drain).
Proof.
  intros (k & Hs & Hk & Ht).
  exists (push [ICall M f v drain drain] (with_stack k st)). split.
  - apply reach_step; [|reflexivity]. unfold step. rewrite Hs. reflexivity.
  - exists k. repeat split; assumption.
Qed.

(** X4.  When the handler of a catch fails, by [IO.fail] or by calling
    [giveup(err)], the error raised in the protected region goes on to the
    outer failure continuation [traceback]: it is entered with the IOError
    that the handler received (the one raised, with [restart] added) and with
    [M.drain] for both continuations. *)
Theorem failing_handler_rolls_back (three_args : bool) (M : nat) (e x : val)
    (k start traceback : action) (st : state) :
  let F := catch_frame M (failing_handler three_args) start traceback in
  at_instr (ICall M (raise_ e) x k F) st ->
  arrives st (IApply M traceback
                (with_restart M (failing_handler three_args) start traceback
                   (IOError M e x k F))
                drain drain).
Proof.
  intros F H.
  eapply arrives_then; [apply raise_arrives, H|].
  intros st1 H1.
  eapply arrives_then; [exact (catch_frame_calls_handler _ _ _ _ _ _ _ _ _ _ H1)|].
  intros st2 H2. destruct three_args; simpl in H2.
  - eapply arrives_then; [eapply apply_arrives; [exact H2 | reflexivity]|].
    intros st3 H3.
    eapply arrives_then; [eapply call_apply_arrives; [exact H3 | reflexivity]|].
    intros st4 H4.
    eapply arrives_then; [apply cb_fail_arrives, H4|].
    intros st5 H5. apply call_arrives, H5.
  - eapply arrives_then; [eapply apply_arrives; [exact H2 | reflexivity]|].
    intros st3 H3. apply call_arrives, H3.
Qed.

Lemma failing_handler_rolls_back_witness :
  let F := catch_frame Ex (failing_handler true) (raise_ (VStr "e")) (tap_ "outer") in
  arrives (push [ICall Ex (raise_ (VStr "e")) (VNum 1) drain F] ExM)
          (IApply Ex (tap_ "outer")
             (with_restart Ex (failing_handler true) (raise_ (VStr "e")) (tap_ "outer")
                (IOError Ex (VStr "e") (VNum 1) drain F))
             drain drain).
Proof.
  intros F.
  apply (failing_handler_rolls_back true Ex (VStr "e") (VNum 1) drain (raise_ (VStr "e"))
           (tap_ "outer")).
  exists []. repeat split. constructor.
Defined.

(** ** [IOPauseCondition.prototype.resume] *)

Lemma resume_loop p extra k : forall tags st,
  cells st !! p = Some (C_pause (procedures tags) extra) ->
  stack st = IPauseResume p :: k ->
  exists n, trace (run n st) = trace st ++ procedure_events (rev tags) /\
            stack (run n st) = k /\
            cells (run n st) !! p = Some (C_pause [] extra).
Proof.
  induction tags as [|t tags IH] using rev_ind; intros st Hc Hs.
  - exists 1%nat. simpl. unfold step. rewrite Hs. simpl. rewrite Hc. simpl.
    rewrite app_nil_r. repeat split. exact Hc.
  - set (st2 := record t VUndef
                  (with_stack (IPauseResume p :: k)
                     (set_cell p (C_pause (procedures tags) extra) st))).
    assert (H2 : run 2 st = st2).
    { simpl. unfold step. rewrite Hs. simpl. rewrite Hc.
      unfold procedures. rewrite map_app. simpl. rewrite last_snoc, removelast_last.
      reflexivity. }
    destruct (IH st2) as (n & Ht & Hk & Hp).
    + unfold st2. simpl. apply lookup_insert_eq.
    + reflexivity.
    + exists (2 + n)%nat. rewrite run_add, H2. repeat split; try assumption.
      rewrite Ht. unfold st2. simpl. rewrite rev_app_distr. simpl.
      rewrite <- app_assoc. reflexivity.
Qed.

(** X5.  [resume()] of a pause condition calls the callbacks registered
    with [onresume] in the reverse of their registration order, each once,
    and leaves none registered, so that a second [resume()] calls nothing. *)
Theorem pause_resume_drains (p : nat) (extra : list (string * val)) (tags : list string)
    (k : list instr) (st : state) :
  cells st !! p = Some (C_pause (procedures tags) extra) ->
  stack st = IPauseResume p :: IPauseResume p :: k ->
  exists n m,
    trace (run n st) = trace st ++ procedure_events (rev tags) /\
    stack (run n st) = IPauseResume p :: k /\
    cells (run n st) !! p = Some (C_pause [] extra) /\
    trace (run (n + m) st) = trace (run n st) /\
    stack (run (n + m) st) = k /\
    cells (run (n + m) st) !! p = Some (C_pause [] extra).
Proof.
  intros Hc Hs.
  destruct (resume_loop p extra (IPauseResume p :: k) tags st Hc Hs) as (n & Ht & Hk & Hp).
  destruct (resume_loop p extra k [] (run n st) Hp Hk) as (m & Ht' & Hk' & Hp').
  exists n, m. rewrite run_add. simpl in Ht'. rewrite app_nil_r in Ht'.
  repeat split; assumption.
Qed.

Lemma pause_resume_drains_witness :
  let st := with_stack [IPauseResume 1; IPauseResume 1]
              (set_cell 1 (C_pause (procedures ["first"; "second"]) []) ExM) in
  exists n m,
    trace (run n st) = [("second", VUndef); ("first", VUndef)] /\
    trace (run (n + m) st) = trace (run n st).
Proof.
  intros st.
  destruct (pause_resume_drains 1 [] ["first"; "second"] [] st eq_refl eq_refl)
    as (n & m & H1 & _ & _ & H2 & _).
  exists n, m. split; [exact H1 | exact H2].
Defined.

(** ** [IO.interruption]: every marked sequence is interrupted once *)

Lemma fire_all reason : forall keys hs st,
  fst (fold_left (fun s h => fire_handler reason h s) keys (hs, st)) =
    List.filter (fun h => negb (existsb (Nat.eqb (fst h)) (map fst keys))) hs /\
  ticks (snd (fold_left (fun s h => fire_handler reason h s) keys (hs, st))) =
    ticks st ++ map (fun h => interrupted_task reason (snd h)) keys.
Proof.
  induction keys as [|h keys IH]; intros hs st; simpl.
  - split; [|rewrite app_nil_r; reflexivity].
    induction hs as [|h hs IHh]; [reflexivity|]. simpl. f_equal. exact IHh.
  - unfold fire_handler at 2 4. simpl. 
    destruct (IH (delete_handler (fst h) hs)
                 (delay (arg_M (snd h)) 0 (raise_ (VStr "interrupted"))
                    (VObj Object_ [("reason", reason); ("input", arg_input (snd h))])
                    (arg_success (snd h)) (arg_failure (snd h)) st)) as [H1 H2].
    split.
    + rewrite H1. unfold delete_handler. clear.
      induction hs as [|h0 hs IHh]; [reflexivity|]. simpl.
      rewrite (Nat.eqb_sym (fst h0) (fst h)).
      destruct (fst h =? fst h0)%nat; simpl; [exact IHh|].
      destruct (existsb _ _); simpl; [exact IHh | f_equal; exact IHh].
    + rewrite H2. unfold delay. simpl. rewrite <- app_assoc. reflexivity.
Qed.

Lemma filter_own_ids (hs : list (nat * call_args)) :
  List.filter (fun h => negb (existsb (Nat.eqb (fst h)) (map fst hs))) hs = [].
Proof.
  assert (H : forall l : list (nat * call_args),
            (forall h, In h l -> In (fst h) (map fst hs)) ->
            List.filter (fun h => negb (existsb (Nat.eqb (fst h)) (map fst hs))) l = []).
  { induction l as [|h l IH]; intros Hl; [reflexivity|]. simpl.
    assert (E : existsb (Nat.eqb (fst h)) (map fst hs) = true).
    { apply existsb_exists. exists (fst h). split; [apply Hl; left; reflexivity|].
      apply Nat.eqb_refl. }
    rewrite E. simpl. apply IH. intros h' Hh'. apply Hl. right. exact Hh'. }
  apply H. intros h Hh. apply in_map, Hh.
Qed.

Lemma interrupt_fires_all a i st :
  let r := interrupt a i st in
  int_handlers (fst (fst r)) = [] /\
  int_newid (fst (fst r)) = int_newid i /\
  int_reason (fst (fst r)) = int_reason i /\
  ticks (snd (fst r)) =
    ticks st ++ map (fun h => interrupted_task (int_reason i) (snd h)) (int_handlers i).
Proof.
  unfold interrupt.
  destruct (fire_all (int_reason i) (int_handlers i) (int_handlers i) st) as [H1 H2].
  destruct (fold_left _ _ _) as [hs st'] eqn:E. simpl in *.
  rewrite H1, filter_own_ids. repeat split. exact H2.
Qed.

Lemma interruption_run_inv reason : forall ops i st,
  int_reason i = reason ->
  let r := interruption_run ops i st in
  int_reason (fst r) = reason /\
  exists T, ticks (snd r) = ticks st ++ T /\
    T ++ map (fun h => interrupted_task reason (snd h)) (int_handlers (fst r)) =
      map (fun h => interrupted_task reason (snd h)) (int_handlers i) ++
      map (interrupted_task reason) (marks ops).
Proof.
  induction ops as [|op ops IH]; intros i st Hr.
  - simpl. split; [exact Hr|]. exists []. rewrite !app_nil_r. split; reflexivity.
  - destruct op as [a|a].
    + cbn [interruption_run]. destruct (IH (fst (mark a i)) st Hr) as (Hr' & T & HT & HE).
      split; [exact Hr'|]. exists T. split; [exact HT|].
      rewrite HE. simpl. rewrite map_app, <- app_assoc. reflexivity.
    + cbn [interruption_run].
      destruct (interrupt_fires_all a i st) as (H1 & H2 & H3 & H4).
      destruct (interrupt a i st) as [[i' st'] out]. simpl in *.
      destruct (IH i' st' ltac:(congruence)) as (Hr' & T & HT & HE).
      split; [exact Hr'|].
      exists (map (fun h => interrupted_task reason (snd h)) (int_handlers i) ++ T).
      split.
      * rewrite HT, H4, Hr, <- app_assoc. reflexivity.
      * rewrite <- app_assoc, HE, H1. reflexivity.
Qed.

(** X6.  For every sequence of calls of [mark] and [interrupt] on a fresh
    interruption: the tasks scheduled by the [interrupt]s, followed by those
    of the handlers still registered, are exactly the tasks of the calls of
    [mark], in their order.  So every marked sequence is sent the
    ['interrupted'] condition at most once, with [{reason, input}] as input
    and its own continuations; after an [interrupt] no handler is left, and a
    second [interrupt] right after it schedules nothing. *)
Theorem interruption_fires_once (reason : val) (ops : list interruption_op) (a b : call_args)
    (st : state) :
  let r := interruption_run ops (IO_interruption reason) st in
  let r1 := interruption_run (ops ++ [Interrupt a]) (IO_interruption reason) st in
  let r2 := interruption_run (ops ++ [Interrupt a; Interrupt b]) (IO_interruption reason) st in
  (exists T, ticks (snd r) = ticks st ++ T /\
     T ++ map (fun h => interrupted_task reason (snd h)) (int_handlers (fst r)) =
       map (interrupted_task reason) (marks ops)) /\
  int_handlers (fst r1) = [] /\
  ticks (snd r1) = ticks st ++ map (interrupted_task reason) (marks ops) /\
  ticks (snd r2) = ticks (snd r1) /\ int_handlers (fst r2) = [].
Proof.
  assert (Hsplit : forall ops1 ops2 i s,
             interruption_run (ops1 ++ ops2) i s =
             interruption_run ops2 (fst (interruption_run ops1 i s))
                                   (snd (interruption_run ops1 i s))).
  { induction ops1 as [|op ops1 IH]; intros ops2 i s; [reflexivity|].
    destruct op; cbn [app interruption_run]; [apply IH|].
    destruct (interrupt a0 i s) as [[i' s'] out]. apply IH. }
  intros r r1 r2.
  destruct (interruption_run_inv reason ops (IO_interruption reason) st eq_refl)
    as (Hr & T & HT & HE).
  fold r in Hr, HT, HE. simpl in HE.
  assert (H1 : int_handlers (fst r1) = [] /\
               ticks (snd r1) = ticks st ++ map (interrupted_task reason) (marks ops) /\
               int_reason (fst r1) = reason).
  { unfold r1. rewrite Hsplit. fold r. cbn [interruption_run].
    destruct (interrupt_fires_all a (fst r) (snd r)) as (E1 & E2 & E3 & E4).
    destruct (interrupt a (fst r) (snd r)) as [[i' st'] out]. simpl in *.
    repeat split; [exact E1 | | congruence].
    rewrite E4, HT, Hr, <- app_assoc, HE. reflexivity. }
  destruct H1 as (H1a & H1b & H1c).
  split; [exists T; split; assumption|].
  split; [exact H1a|]. split; [exact H1b|].
  unfold r2. change [Interrupt a; Interrupt b] with ([Interrupt a] ++ [Interrupt b]).
  rewrite app_assoc, Hsplit. fold r1. cbn [interruption_run].
  destruct (interrupt_fires_all b (fst r1) (snd r1)) as (E1 & E2 & E3 & E4).
  destruct (interrupt b (fst r1) (snd r1)) as [[i' st'] out]. simpl in *.
  split; [|exact E1]. rewrite E4, H1a. simpl. apply app_nil_r.
Qed.

(** ** [IO.add]: merging the keys *)





(** ** [IO.collectUntil] *)

Lemma collected_after_filter test M s f : forall xs acc,
  collected_after test M s f xs acc = acc ++ List.filter (fun x => negb (test x)) xs.
Proof.
  unfold collected_after.
  induction xs as [|x xs IH]; intros acc; simpl; [rewrite app_nil_r; reflexivity|].
  rewrite IH. unfold collectUntil_. destruct (test x); simpl; [reflexivity|].
  rewrite <- app_assoc. reflexivity.
Qed.

(** X8.  After any inputs [xs], the action made by [collectUntil(test)]
    answers an input that passes the test by calling [M.drain] with the items
    collected so far, so nothing reaches its success continuation, and the
    accumulator is kept as it is; it answers any other input [y] by calling
    success with all the inputs received so far that failed the test, in
    order, [y] last.  The items collected before a terminating input are
    still there afterwards: the collection never starts afresh. *)
Theorem collectUntil_keeps_collecting (test : val -> bool) (M : nat) (s f : action)
    (xs : list val) (y : val) :
  let acc := List.filter (fun x => negb (test x)) xs in
  collectUntil_ test M y s f (collected_after test M s f xs []) =
    if test y then (acc, ICall M drain (VArr acc) drain f)
    else (acc ++ [y], ICall M s (VArr (acc ++ [y])) drain f).
Proof.
  intros acc. rewrite collected_after_filter. simpl. fold acc.
  unfold collectUntil_. destruct (test y); reflexivity.
Qed.

(** ** Host exceptions in [ExM.call] *)

(** X9.  When an action entered through [call] throws a host exception
    [e], the failure continuation of that call is entered with a new IOError
    holding [e], the input of the call and its two continuations, and with
    [M.drain] for both of its own continuations.  When the failure
    continuation so called throws itself, that exception is swallowed: the
    turn goes on after the call and nothing is recorded. *)
Theorem call_routes_exceptions (a : action) (M : nat) (x e : val) (s f : action) :
  (forall s0, body a M x s f s0 = Throws e s0) ->
  (forall st, at_instr (ICall M a x s f) st ->
     arrives st (IApply M f (IOError M e x s f) drain drain)) /\
  (forall e' y st k,
     (forall s0, body f M y drain drain s0 = Throws e' s0) ->
     stack st = IApply M f y drain drain :: IHandlerEnd :: k ->
     exists st', step st = Some st' /\ stack st' = k /\ trace st' = trace st).
Proof.
  intros Hb. split.
  - intros st H.
    destruct (call_enters_try M a x s f st H) as (st1 & k & Hr & Hs & Hk & Hq & _).
    exists (with_stack (IApply M f (IOError M e x s f) drain drain :: IHandlerEnd :: k) st1).
    split.
    + eapply reach_trans; [exact Hr|].
      apply reach_step; [|reflexivity].
      unfold step. rewrite Hs. simpl. rewrite Hb. reflexivity.
    + exists (IHandlerEnd :: k). repeat split; [constructor; [exact I | exact Hk] | exact Hq].
  - intros e' y st k Hb' Hs. eexists. unfold step. rewrite Hs. simpl. rewrite Hb'.
    split; [reflexivity|]. split; reflexivity.
Qed.

Lemma call_routes_exceptions_witness :
  arrives (IO_run Ex VUndef forgive ExM)
          (IApply Ex drain (IOError Ex TypeError VUndef drain drain) drain drain).
Proof.
  apply (proj1 (call_routes_exceptions forgive Ex VUndef TypeError drain drain
                  (fun s0 => eq_refl))).
  exists []. repeat split. constructor.
Defined.

(** ** [err.rollback] *)

(** X10.  [rollback] of an IOError is bound to the failure continuation
    that was in force where the error was raised.  Inside the handler of the
    nearest catch this is the handler's own catch: [err.rollback(err)], called
    on the error as the handler received it, enters the same handler again
    with the same error and the same continuations. *)
Theorem rollback_reenters_handler (M : nat) (onfail start traceback k : action) (e x : val)
    (st : state) :
  let F := catch_frame M onfail start traceback in
  let err := with_restart M onfail start traceback (IOError M e x k F) in
  prop err "rollback" = Some (VCb (autodrain M F)) /\
  (at_instr (ICallback (autodrain M F) err) st ->
   arrives st (IApply M onfail err (branch (catch_ onfail) start traceback) traceback)).
Proof.
  intros F err. split; [reflexivity|].
  intros H.
  eapply arrives_then; [apply autobranch_arrives, H|].
  intros st1 H1. unfold err, with_restart, IOError in H1.
  exact (catch_frame_calls_handler _ _ _ _ _ _ _ _ _ _ H1).
Qed.

Lemma rollback_reenters_handler_witness :
  let F := catch_frame Ex (tap_ "handler") drain drain in
  let err := with_restart Ex (tap_ "handler") drain drain (IOError Ex (VStr "e") (VNum 1) drain F) in
  arrives (push [ICallback (autodrain Ex F) err] ExM)
          (IApply Ex (tap_ "handler") err (branch (catch_ (tap_ "handler")) drain drain) drain).
Proof.
  intros F err.
  apply (proj2 (rollback_reenters_handler Ex (tap_ "handler") drain drain drain
                  (VStr "e") (VNum 1) _)).
  exists []. repeat split. constructor.
Defined.

(** ** [IO.filter] and [IO.delay] *)

(** X11.  [IO.filter(pred)]: an input that satisfies the predicate enters
    the success continuation, unchanged.  An input that does not is given
    to [pass] with [M.drain] as its success continuation: [M.drain] is
    entered, the turn ends there with nothing recorded and nothing left to
    run, so the input is dropped without reaching success or failure. *)
Theorem filter_drops_rejected (pred : val -> bool) (M : nat) (x : val) (s f : action)
    (st : state) :
  at_instr (filter_ pred M x s f) st ->
  if pred x then arrives st (IApply M s x drain f)
  else arrives st (IApply M drain x drain f) /\
       exists st', reach st st' /\ stack st' = [] /\ ticks st' = [].
Proof.
  unfold filter_. intros H. destruct (pred x).
  - apply call_arrives, H.
  - assert (Ha : arrives st (IApply M drain x drain f)).
    { eapply arrives_then; [eapply call_apply_arrives; [exact H | reflexivity]|].
      intros st1 H1. apply call_arrives, H1. }
    split; [exact Ha|].
    destruct Ha as (st1 & Hr & (k & Hs & Hk & Hq)).
    exists (with_stack [] (with_stack k st1)). repeat split; [|exact Hq].
    eapply reach_trans; [exact Hr|]. eapply reach_trans.
    + apply (reach_step st1 (with_stack k st1)); [|reflexivity].
      unfold step. rewrite Hs. reflexivity.
    + apply (run_inert k); [reflexivity | exact Hk].
Qed.

Lemma filter_drops_rejected_witness :
  arrives (push [filter_ is_undefined Ex (VNum 3) (tap_ "kept") drain] ExM)
          (IApply Ex drain (VNum 3) drain drain).
Proof.
  apply (filter_drops_rejected is_undefined Ex (VNum 3) (tap_ "kept") drain).
  exists []. repeat split. constructor.
Defined.






(** ** Composition: [seq], and errors inside a chain *)

Lemma arrives_with_after e st st' i :
  reach st st' -> arrives_with e st' i -> arrives_with e st i.
Proof.
  intros (n & Hr & Ht) (m & Ht' & Ha). exists (n + m)%nat.
  rewrite run_add, Hr, Ht', Ht. split; [reflexivity | exact Ha].
Qed.

Lemma reduce_seq_probes : forall tags M x s f st,
  at_instr (ICall M (reduce_seq (probes tags)) x s f) st ->
  exists S, drains S = true /\ arrives_with (probe_events tags x) st (ICall M s x S f).
Proof.
  induction tags as [|t l IH] using rev_ind; intros M x s f st H.
  - exists drain. split; [reflexivity|].
    apply arrives_with_nil. eapply call_apply_arrives; [exact H | reflexivity].
  - unfold reduce_seq, probes in H. rewrite map_app, fold_left_app in H.
    change (at_instr (ICall M (seq (reduce_seq (probes l)) (tap_ t)) x s f) st) in H.
    destruct (call_apply_arrives M _ x s f
                (ICall M (reduce_seq (probes l)) x (seq (tap_ t) s) f) st H
                ltac:(reflexivity)) as (st1 & Hr1 & Ha1).
    destruct (IH M x (seq (tap_ t) s) f st1 Ha1) as (S & HS & Hw).
    exists (seq S drain). split; [simpl; rewrite HS; reflexivity|].
    eapply arrives_with_after; [exact Hr1|].
    unfold probe_events. rewrite map_app.
    eapply arrives_with_then; [exact Hw|].
    intros st2 H2.
    eapply arrives_with_silent_then.
    + eapply call_apply_arrives; [exact H2 | reflexivity].
    + intros st3 H3. change (map (fun t0 => (t0, x)) [t]) with ([(t, x)] ++ []).
      eapply arrives_with_then; [apply probe_records, H3|].
      intros st4 H4. apply arrives_with_nil.
      eapply apply_arrives; [exact H4 | reflexivity].
Qed.

Lemma drains_stops : forall S, drains S = true ->
  forall M v s f st, at_instr (ICall M S v s f) st ->
  exists s', arrives st (IApply M drain v s' f).
Proof.
  induction S; intros HS; try discriminate HS; intros cM cv cs cf cst H.
  - exists cs. apply call_arrives, H.
  - simpl in HS. apply andb_prop in HS. destruct HS as [H1 H2].
    destruct (call_apply_arrives cM _ cv cs cf (ICall cM S1 cv (seq S2 cs) cf) cst H
                ltac:(reflexivity)) as (st1 & Hr1 & Ha1).
    destruct (IHS1 H1 cM cv (seq S2 cs) cf st1 Ha1) as (s' & Hs').
    exists s'. eapply arrives_after; [exact Hr1 | exact Hs'].
Qed.

(** X13.  [actions.reduce(seq, pass)], which the source names as the
    simplest implementation of [chain], does on probes what [chain] does:
    the input is recorded once for every probe, in order, and the
    continuation after the sequence is entered with the same input and the
    same failure continuation.  Its success continuation is not [M.drain]
    itself but is built from [M.drain] by [seq], and every such continuation,
    when called, only enters [M.drain]. *)
Theorem reduce_seq_of_probes_in_order (tags : list string) (M : nat) (x : val) (k f : action)
    (st : state) :
  at_instr (ICall M (reduce_seq (probes tags)) x k f) st ->
  (exists S, drains S = true /\
             arrives_with (probe_events tags x) st (IApply M k x S f)) /\
  (forall S M' v s' f' st', drains S = true ->
     at_instr (ICall M' S v s' f') st' ->
     exists s'', arrives st' (IApply M' drain v s'' f')).
Proof.
  intros H. split.
  - destruct (reduce_seq_probes tags M x k f st H) as (S & HS & Hw).
    exists S. split; [exact HS|].
    rewrite <- (app_nil_r (probe_events tags x)).
    eapply arrives_with_then; [exact Hw|].
    intros st1 H1. apply arrives_with_nil, call_arrives, H1.
  - intros S M' v s' f' st' HS H'. eapply drains_stops; eassumption.
Qed.

Lemma reduce_seq_of_probes_in_order_witness :
  exists S, drains S = true /\
    arrives_with [("a", VNum 1); ("b", VNum 1)]
      (IO_run Ex (VNum 1) (reduce_seq (probes ["a"; "b"])) ExM)
      (IApply Ex drain (VNum 1) S drain).
Proof.
  apply (reduce_seq_of_probes_in_order ["a"; "b"] Ex (VNum 1) drain drain).
  exists []. repeat split. constructor.
Defined.

(** Probes in the middle of a chain. *)
Lemma probes_mid M x k f B : forall tags A st,
  at_instr (ICall M (chain_iter (A ++ probes tags ++ B) (length A) k) x drain f) st ->
  arrives_with (probe_events tags x) st
    (ICall M (chain_iter (A ++ probes tags ++ B) (length A + length tags) k) x drain f).
Proof.
  induction tags as [|t tags IH]; intros A st H.
  - simpl. rewrite Nat.add_0_r. apply arrives_with_now, H.
  - assert (Ht : (A ++ probes (t :: tags) ++ B) !! length A = Some (tap_ t)).
    { rewrite lookup_app_r, Nat.sub_diag by lia. reflexivity. }
    eapply arrives_with_silent_then; [eapply chain_iter_arrives; [exact Ht | exact H]|].
    intros st1 (r & Hs & Hr & Hq).
    change (probe_events (t :: tags) x) with ([(t, x)] ++ probe_events tags x).
    eapply arrives_with_then.
    + exists 1%nat. simpl. unfold step. rewrite Hs. simpl. split; [reflexivity|].
      exists r. repeat split; assumption.
    + intros st2 H2.
      replace (A ++ probes (t :: tags) ++ B) with ((A ++ [tap_ t]) ++ probes tags ++ B)
        by (rewrite <- app_assoc; reflexivity).
      replace (length A + length (t :: tags))%nat with (length (A ++ [tap_ t]) + length tags)%nat
        by (rewrite length_app; simpl; lia).
      apply IH. rewrite length_app. simpl.
      replace (length A + 1)%nat with (S (length A)) by lia.
      rewrite <- app_assoc. exact H2.
Qed.

Lemma chain_enters_iter M l x k f st :
  at_instr (ICall M (chain l) x k f) st ->
  (2 <= length l)%nat ->
  arrives st (ICall M (chain_iter l 0 k) x drain f).
Proof.
  intros H Hl. destruct l as [|a [|b l]]; simpl in Hl; try lia.
  eapply call_apply_arrives; [exact H | reflexivity].
Qed.

(** X14.  An error raised inside a chain skips the rest of the chain: the
    probes before the [raise] record the input, those after it record
    nothing, and the failure continuation of the chain is entered with the
    IOError, whose captured input is the input of the chain.  The [resume]
    of that error continues the chain after the [raise]: called with a value
    it makes the remaining probes record that value, in order, and then
    enters the continuation after the chain with it. *)
Theorem chain_raise_skips_rest (tags1 tags2 : list string) (e : val) (M : nat) (x : val)
    (k f : action) (st : state) :
  let l := raising_chain tags1 e tags2 in
  let rest := chain_iter l (S (length tags1)) k in
  let err := IOError M e x rest f in
  at_instr (ICall M (chain l) x k f) st ->
  arrives_with (probe_events tags1 x) st (IApply M f err drain drain) /\
  prop err "resume" = Some (VCb (autobranch M rest drain f)) /\
  (forall v st', at_instr (ICallback (autobranch M rest drain f) v) st' ->
     arrives_with (probe_events tags2 v) st' (IApply M k v drain f)).
Proof.
  intros l rest err H. split; [|split; [reflexivity|]].
  - assert (Hraise : forall s0 st0,
              at_instr (ICall M (raise_ e) x s0 f) st0 ->
              arrives st0 (IApply M f (IOError M e x s0 f) drain drain)).
    { intros s0 st0 H0. eapply arrives_then; [apply raise_arrives, H0|].
      intros st1 H1. apply call_arrives, H1. }
    destruct (Nat.le_gt_cases 2 (length l)) as [Hl|Hl].
    + rewrite <- (app_nil_r (probe_events tags1 x)).
      eapply arrives_with_silent_then; [apply chain_enters_iter; [exact H | exact Hl]|].
      intros st1 H1.
      eapply arrives_with_then.
      * apply (probes_mid M x k f (raise_ e :: probes tags2) tags1 []). exact H1.
      * intros st2 H2. apply arrives_with_nil.
        eapply arrives_then.
        -- eapply (chain_iter_arrives _ _ (raise_ e)); [|exact H2].
           change ([] ++ probes tags1 ++ raise_ e :: probes tags2)
             with (probes tags1 ++ raise_ e :: probes tags2).
           rewrite lookup_app_r by (unfold probes; rewrite length_map; simpl; lia).
           unfold probes. rewrite length_map. simpl. rewrite Nat.sub_diag. reflexivity.
        -- intros st3 (r & Hs & Hr & Hq).
           eapply arrives_then.
           ++ eapply apply_arrives;
                [exists r; repeat split; eassumption | intros s0; reflexivity].
           ++ intros st4 H4.
              exact (call_arrives _ _ _ _ _ _ H4).
    + assert (tags1 = [] /\ tags2 = []) as [-> ->].
      { unfold l, raising_chain, probes in Hl. rewrite length_app in Hl. simpl in Hl.
        rewrite !length_map in Hl.
        destruct tags1, tags2; simpl in Hl; try lia. split; reflexivity. }
      apply arrives_with_nil. apply Hraise. exact H.
  - intros v st' H'.
    eapply arrives_with_silent_then; [apply autobranch_arrives, H'|].
    intros st1 H1.
    rewrite <- (app_nil_r (probe_events tags2 v)).
    eapply arrives_with_then.
    + pose proof (probes_mid M v k f [] tags2 (probes tags1 ++ [raise_ e]) st1) as P.
      rewrite app_nil_r, <- app_assoc in P. simpl in P.
      rewrite length_app in P. simpl in P.
      replace (length (probes tags1) + 1)%nat with (S (length tags1)) in P
        by (unfold probes; rewrite length_map; lia).
      apply P. exact H1.
    + intros st2 H2. apply arrives_with_nil.
      rewrite chain_iter_end in H2
        by (unfold probes; rewrite !length_app; simpl; rewrite !length_map; lia).
      apply call_arrives, H2.
Qed.

Lemma chain_raise_skips_rest_witness :
  arrives_with [("a", VNum 1)]
    (IO_run Ex (VNum 1) (chain (raising_chain ["a"] (VStr "e") ["b"])) ExM)
    (IApply Ex drain
       (IOError Ex (VStr "e") (VNum 1)
          (chain_iter (raising_chain ["a"] (VStr "e") ["b"]) 2 drain) drain)
       drain drain).
Proof.
  apply (chain_raise_skips_rest ["a"] ["b"] (VStr "e") Ex (VNum 1) drain drain).
  exists []. repeat split. constructor.
Defined.

(** ** [err.resume(v)] under a catch *)



